(** * QueryScorer: scoring a query string against sets of keywords

    A verification development for [QueryScorer.js] of the urlbar search
    interventions experiment.  The class keeps a corpus of documents (objects
    with an [id] and an array of [words]), indexes them by word and by word
    prefix, and scores a query string against them with Levenshtein edit
    distances.

    Conventions of the embedding:
    - a JavaScript string is the list of its UTF-16 code units;
    - a JavaScript number is an integer, an infinity or NaN (the scorer only
      ever produces sums of edit distances and [Infinity]; integers are exact
      doubles below 2^53);
    - [Set] and [Map] objects are lists in insertion order;
    - document objects and arrays live in a store and are passed by reference;
    - methods run in a state-and-exception monad over that store. *)

From Stdlib Require Import ZArith NArith List Sorting.Sorted Sorting.Permutation Ascii String.
From stdpp Require Import base tactics option list gmap.

Local Open Scope Z_scope.

(** ** Strings *)

Definition codeunit := N.
Definition jsstring := list codeunit.

(** [String.prototype.substring(0, i)] for [0 <= i]. *)
Definition substring0 (s : jsstring) (i : nat) : jsstring := take i s.

(** ECMAScript WhiteSpace and LineTerminator code points: what
    [String.prototype.trim] strips and what the regular expression class
    [\s] matches. *)
Definition isWhiteSpace (c : codeunit) : bool :=
  ((9 <=? c) && (c <=? 13) || (c =? 32) || (c =? 160) || (c =? 5760)
   || (8192 <=? c) && (c <=? 8202) || (c =? 8232) || (c =? 8233)
   || (c =? 8239) || (c =? 8287) || (c =? 12288) || (c =? 65279))%N.

Fixpoint dropWhiteSpace (s : jsstring) : jsstring :=
  match s with
  | c :: s' => if isWhiteSpace c then dropWhiteSpace s' else s
  | [] => []
  end.

(** [String.prototype.trim]. *)
Definition trim (s : jsstring) : jsstring :=
  rev (dropWhiteSpace (rev (dropWhiteSpace s))).

(** [String.prototype.split(/\s+/)]: the pieces between maximal runs of
    white space, the empty pieces before a leading run and after a trailing
    run included; the empty string splits into one empty piece.  [cur] is
    the current piece, last character first; [inrun] says that the
    previous character was white space. *)
Fixpoint split_go (cur : jsstring) (inrun : bool) (s : jsstring) : list jsstring :=
  match s with
  | [] => [rev cur]
  | c :: s' =>
      if isWhiteSpace c then
        if inrun then split_go [] true s' else rev cur :: split_go [] true s'
      else split_go (c :: cur) false s'
  end.

Definition split_whitespace (s : jsstring) : list jsstring := split_go [] false s.

(** The host's locale-sensitive lower-casing, [String.prototype.
    toLocaleLowerCase]: it depends on the Unicode tables and on the locale of
    the browser, so the development is parametric in it. *)
Class Locale := toLocaleLowerCase : jsstring -> jsstring.

(** ** Numbers *)

Inductive number := Fin (z : Z) | PInf | NInf | NaN.

Global Instance number_eq_dec : EqDecision number.
Proof. solve_decision. Defined.

Definition js_add (a b : number) : number :=
  match a, b with
  | NaN, _ | _, NaN => NaN
  | PInf, NInf | NInf, PInf => NaN
  | PInf, _ | _, PInf => PInf
  | NInf, _ | _, NInf => NInf
  | Fin x, Fin y => Fin (x + y)
  end.

Definition js_neg (a : number) : number :=
  match a with Fin x => Fin (- x) | PInf => NInf | NInf => PInf | NaN => NaN end.

Definition js_sub (a b : number) : number := js_add a (js_neg b).

(** [a < b]; every comparison with NaN is false. *)
Definition js_lt (a b : number) : bool :=
  match a, b with
  | NaN, _ | _, NaN => false
  | _, NInf | PInf, _ => false
  | NInf, _ | _, PInf => true
  | Fin x, Fin y => x <? y
  end.

(** [a > b]. *)
Definition js_gt (a b : number) : bool := js_lt b a.

(** [a <= b]. *)
Definition js_le (a b : number) : bool :=
  match a, b with
  | NaN, _ | _, NaN => false
  | NInf, _ | _, PInf => true
  | Fin x, Fin y => x <=? y
  | _, _ => false
  end.

(** [Math.min(a, b)]. *)
Definition Math_min (a b : number) : number :=
  match a, b with
  | NaN, _ | _, NaN => NaN
  | _, _ => if js_lt b a then b else a
  end.

(** [v || 0] for [v] a number or [undefined]: [undefined], [0] and [NaN] are
    falsy. *)
Definition or_zero (v : option number) : number :=
  match v with
  | None | Some NaN | Some (Fin 0) => Fin 0
  | Some n => n
  end.

(** ** Set and Map objects, in insertion order *)

Module JSSet.
Section Elt.
Context {A : Type} `{EqDecision A}.
Definition has (s : list A) (x : A) : bool := bool_decide (x ∈ s).
(** [add] leaves the position of an element already present. *)
Definition add (s : list A) (x : A) : list A := if has s x then s else s ++ [x].
End Elt.
End JSSet.

Module JSMap.
Section KV.
Context {K V : Type} `{EqDecision K}.
Fixpoint get (m : list (K * V)) (k : K) : option V :=
  match m with
  | [] => None
  | (k', v) :: m' => if decide (k = k') then Some v else get m' k
  end.
Definition has (m : list (K * V)) (k : K) : bool :=
  match get m k with Some _ => true | None => false end.
(** [set] overwrites the value of a key already present, in place, and
    appends a new key. *)
Fixpoint set (m : list (K * V)) (k : K) (v : V) : list (K * V) :=
  match m with
  | [] => [(k, v)]
  | (k', v') :: m' => if decide (k = k') then (k, v) :: m' else (k', v') :: set m' k v
  end.
Definition keys (m : list (K * V)) : list K := m.*1.
End KV.
End JSMap.

(** ** Levenshtein distance *)

Module Levenshtein.

(** [new Array(n)]: the cells are holes; every cell of [p1] and [p2] is
    written before it is read, so the filler is never observed. *)
Definition new_Array (n : nat) : list Z := replicate n 0.

(** The costs are the last three parameters of the method, with the
    default 1 each; [score] calls it with the two words alone.  Here they
    come first. *)
Section Costs.
Variables costIns costRep costDel : Z.

(** Body of [for (i2 = 0; i2 < l2; i2++)], lines 217-230. *)
Definition inner_body (ch1 : codeunit) (word2 : jsstring) (p1 p2 : list Z)
    (i2 : nat) : list Z :=
  let c0 := p1 !!! i2 + (if N.eqb ch1 (word2 !!! i2) then 0 else costRep) in
  let c1 := p1 !!! (i2 + 1)%nat + costDel in
  let c0 := if c1 <? c0 then c1 else c0 in
  let c2 := p2 !!! i2 + costIns in
  let c0 := if c2 <? c0 then c2 else c0 in
  <[(i2 + 1)%nat := c0]> p2.

(** Body of [for (i1 = 0; i1 < l1; i1++)], lines 214-235; the state is the
    pair of rows [(p1, p2)], swapped at the end of each round. *)
Definition outer_body (word1 word2 : jsstring) (l2 : nat)
    (rows : list Z * list Z) (i1 : nat) : list Z * list Z :=
  let '(p1, p2) := rows in
  let p2 := <[0%nat := p1 !!! 0%nat + costDel]> p2 in
  let p2 := foldl (inner_body (word1 !!! i1) word2 p1) p2 (seq 0 l2) in
  (p2, p1).

Definition _levenshtein (word1 word2 : jsstring) : Z :=
  if decide (word1 = word2) then 0
  else
    let l1 := length word1 in
    let l2 := length word2 in
    if decide (l1 = 0%nat) then Z.of_nat l2 * costIns
    else if decide (l2 = 0%nat) then Z.of_nat l1 * costDel
    else
      let p1 := new_Array (l2 + 1) in
      let p2 := new_Array (l2 + 1) in
      let p1 := foldl (fun p i2 => <[i2 := Z.of_nat i2 * costIns]> p) p1
                      (seq 0 (l2 + 1)) in
      let '(p1, _) := foldl (outer_body word1 word2 l2) (p1, p2) (seq 0 l1) in
      p1 !!! l2.

(** The textbook recurrence, on prefixes held last character first. *)
Fixpoint dist (a : jsstring) : jsstring -> Z :=
  fix dist_a (b : jsstring) : Z :=
    match a, b with
    | [], _ => Z.of_nat (length b) * costIns
    | _, [] => Z.of_nat (length a) * costDel
    | x :: a', y :: b' =>
        Z.min (Z.min (dist a' b' + (if N.eqb x y then 0 else costRep))
                     (dist a' b + costDel))
              (dist_a b' + costIns)
    end.

(** The entry of the table for the first [i] characters of [word1] and the
    first [j] characters of [word2]. *)
Definition cell (word1 word2 : jsstring) (i j : nat) : Z :=
  dist (rev (take i word1)) (rev (take j word2)).

(** A row of the table, held in an array of [l2 + 1] cells, filled up to
    column [n]. *)
Definition row_upto (word1 word2 : jsstring) (i n : nat) (p : list Z) : Prop :=
  length p = S (length word2) /\
  forall j, (j <= n)%nat -> p !!! j = cell word1 word2 i j.

End Costs.

End Levenshtein.

(** ** The store: document objects and arrays, by reference *)

Definition ref := nat.

(** A document object [{ id, words }]; [doc_words] refers to an array of
    strings in the store. *)
Record Document := { doc_id : jsstring; doc_words : ref }.

(** The fields of a [QueryScorer] instance. *)
Record QueryScorer := {
  _distanceThreshold : number;
  _stopWords : list jsstring;
  _stopWordPrefixes : list jsstring;
  _documents : list ref;
  _documentsByWord : list (jsstring * list ref);
  _documentsByPrefix : list (jsstring * list ref)
}.

Record World := {
  this : QueryScorer;
  objects : gmap ref Document;
  arrays : gmap ref (list jsstring)
}.

(** Values a caller can pass where a string is expected. *)
Inductive value :=
| VUndefined
| VNull
| VBoolean (b : bool)
| VNumber (n : number)
| VString (s : jsstring)
| VObject (r : ref).

(** Exceptions: [TypeError] is what the host raises; the scorer has no
    [throw] statement of its own.  [InvalidArgument] and
    [InvalidConfiguration] are the names of the specification's taxonomy. *)
Inductive exn := TypeError | InvalidArgument | InvalidConfiguration.

Inductive completion (A : Type) :=
| Normal (a : A)
| Throw (e : exn).
Arguments Normal {A} a.
Arguments Throw {A} e.

(** ** The monad of methods: state and exceptions *)

Definition M (A : Type) : Type := World -> World * completion A.

Global Instance M_ret : MRet M := fun A a w => (w, Normal a).

Global Instance M_bind : MBind M := fun A B k m w =>
  match m w with
  | (w', Normal a) => k a w'
  | (w', Throw e) => (w', Throw e)
  end.

Definition throw {A} (e : exn) : M A := fun w => (w, Throw e).

(** Read a field of [this]. *)
Definition read {A} (field : QueryScorer -> A) : M A :=
  fun w => (w, Normal (field (this w))).

(** Assign to fields of [this]. *)
Definition assign (f : QueryScorer -> QueryScorer) : M unit :=
  fun w => ({| this := f (this w); objects := objects w; arrays := arrays w |},
            Normal tt).

(** [for (let x of l) body], the loop carrying the local variables [s]. *)
Fixpoint for_of {A S} (l : list A) (body : S -> A -> M S) (s : S) : M S :=
  match l with
  | [] => mret s
  | x :: l' => s' ← body s x; for_of l' body s'
  end.

(** [Array.prototype.sort(comparefn)].  SortCompare reads a NaN result of
    the comparison function as +0; the sort is stable (a merge sort in the
    host), which this insertion sort is as well. *)
Definition SortCompare {A} (comparefn : A -> A -> number) (x y : A) : number :=
  match comparefn x y with NaN => Fin 0 | v => v end.

Fixpoint sort_insert {A} (comparefn : A -> A -> number) (x : A) (l : list A) : list A :=
  match l with
  | [] => [x]
  | y :: l' =>
      if js_gt (SortCompare comparefn x y) (Fin 0) then y :: sort_insert comparefn x l'
      else x :: l
  end.

Definition Array_sort {A} (comparefn : A -> A -> number) (l : list A) : list A :=
  foldr (sort_insert comparefn) [] l.

(** ** The QueryScorer class *)

Module Result.
(** An element of the array returned by [score]: [{ document, score }]. *)
Record t := { document : ref; score : number }.
End Result.

(** The argument of the constructor, [{ distanceThreshold = 1, stopWords = [] }
    = {}]: a missing property takes its default. *)
Record Options := {
  opt_distanceThreshold : option number;
  opt_stopWords : option (list jsstring)
}.

Definition with_distanceThreshold (v : number) (t : QueryScorer) : QueryScorer :=
  {| _distanceThreshold := v; _stopWords := _stopWords t;
     _stopWordPrefixes := _stopWordPrefixes t; _documents := _documents t;
     _documentsByWord := _documentsByWord t;
     _documentsByPrefix := _documentsByPrefix t |}.

Definition with_stopWords (v : list jsstring) (t : QueryScorer) : QueryScorer :=
  {| _distanceThreshold := _distanceThreshold t; _stopWords := v;
     _stopWordPrefixes := _stopWordPrefixes t; _documents := _documents t;
     _documentsByWord := _documentsByWord t;
     _documentsByPrefix := _documentsByPrefix t |}.

Definition with_stopWordPrefixes (v : list jsstring) (t : QueryScorer) : QueryScorer :=
  {| _distanceThreshold := _distanceThreshold t; _stopWords := _stopWords t;
     _stopWordPrefixes := v; _documents := _documents t;
     _documentsByWord := _documentsByWord t;
     _documentsByPrefix := _documentsByPrefix t |}.

Definition with_documents (v : list ref) (t : QueryScorer) : QueryScorer :=
  {| _distanceThreshold := _distanceThreshold t; _stopWords := _stopWords t;
     _stopWordPrefixes := _stopWordPrefixes t; _documents := v;
     _documentsByWord := _documentsByWord t;
     _documentsByPrefix := _documentsByPrefix t |}.

Definition with_documentsByWord (v : list (jsstring * list ref)) (t : QueryScorer)
    : QueryScorer :=
  {| _distanceThreshold := _distanceThreshold t; _stopWords := _stopWords t;
     _stopWordPrefixes := _stopWordPrefixes t; _documents := _documents t;
     _documentsByWord := v;
     _documentsByPrefix := _documentsByPrefix t |}.

Definition with_documentsByPrefix (v : list (jsstring * list ref)) (t : QueryScorer)
    : QueryScorer :=
  {| _distanceThreshold := _distanceThreshold t; _stopWords := _stopWords t;
     _stopWordPrefixes := _stopWordPrefixes t; _documents := _documents t;
     _documentsByWord := _documentsByWord t;
     _documentsByPrefix := v |}.

(** [doc.words], read as an array: a [TypeError] when [doc] is not an object
    of the store or its [words] is not an array. *)
Definition get_words (doc : ref) : M (list jsstring) := fun w =>
  match objects w !! doc with
  | Some d =>
      match arrays w !! doc_words d with
      | Some ws => (w, Normal ws)
      | None => (w, Throw TypeError)
      end
  | None => (w, Throw TypeError)
  end.

(** A new array object, as [Array.prototype.map] creates for its result. *)
Definition new_array (ws : list jsstring) : M ref := fun w =>
  let a := fresh (dom (arrays w)) in
  ({| this := this w; objects := objects w; arrays := <[a := ws]> (arrays w) |},
   Normal a).

(** [doc.words = a]. *)
Definition set_words (doc : ref) (a : ref) : M unit := fun w =>
  match objects w !! doc with
  | Some d =>
      ({| this := this w;
          objects := <[doc := {| doc_id := doc_id d; doc_words := a |}]> (objects w);
          arrays := arrays w |}, Normal tt)
  | None => (w, Throw TypeError)
  end.

(** [searchString.trim()]: only a string has the method. *)
Definition String_trim (searchString : value) : M jsstring :=
  match searchString with
  | VString s => mret (trim s)
  | _ => throw TypeError
  end.

(** [b && m] and [m1 || m2], evaluated left to right with short circuit. *)
Definition andM (b : bool) (m : M bool) : M bool := if b then m else mret false.
Definition orM (m1 m2 : M bool) : M bool :=
  b ← m1; if b : bool then mret true else m2.

Section Methods.
Context {locale : Locale}.

Definition get_distanceThreshold : M number := read _distanceThreshold.

Definition set_distanceThreshold (v : number) : M number :=
  assign (with_distanceThreshold v);; mret v.

Definition get_stopWords : M (list jsstring) := read _stopWords.

(** [set stopWords(array)], lines 62-76. *)
Definition set_stopWords (array : list jsstring) : M (list jsstring) :=
  assign (with_stopWords (foldl JSSet.add [] (map toLocaleLowerCase array)));;
  assign (with_stopWordPrefixes []);;
  stops ← read _stopWords;
  for_of stops (fun _ word =>
    for_of (seq 1 (length word)) (fun _ i =>
      prefixes ← read _stopWordPrefixes;
      assign (with_stopWordPrefixes (JSSet.add prefixes (substring0 word i)))) tt) tt;;
  read _stopWords.

(** [constructor({ distanceThreshold = 1, stopWords = [] } = {})]. *)
Definition constructor (opts : Options) : M unit :=
  set_distanceThreshold (default (Fin 1) (opt_distanceThreshold opts));;
  set_stopWords (default [] (opt_stopWords opts));;
  assign (with_documents []);;
  assign (with_documentsByWord []);;
  assign (with_documentsByPrefix []).

(** The object under construction, before the constructor has run: its
    fields are all overwritten. *)
Definition blank : QueryScorer :=
  {| _distanceThreshold := NaN; _stopWords := []; _stopWordPrefixes := [];
     _documents := []; _documentsByWord := []; _documentsByPrefix := [] |}.

(** [new QueryScorer(opts)] in a store of the caller's objects. *)
Definition new_QueryScorer (opts : Options) (objs : gmap ref Document)
    (arrs : gmap ref (list jsstring)) : World :=
  (constructor opts {| this := blank; objects := objs; arrays := arrs |}).1.

(** Body of [for (let i = 1; i <= word.length; i++)] in [addDocument],
    lines 101-104. *)
Definition index_prefix (doc : ref) (word : jsstring) (i : nat) : M unit :=
  let prefix := substring0 word i in
  byPrefix ← read _documentsByPrefix;
  let docs := default [] (JSMap.get byPrefix prefix) in
  let docs := JSSet.add docs doc in
  assign (with_documentsByPrefix (JSMap.set byPrefix prefix docs)).

(** Body of [for (let word of doc.words)] in [addDocument], lines 93-105. *)
Definition index_word (doc : ref) (word : jsstring) : M unit :=
  byWord ← read _documentsByWord;
  let docs := default [] (JSMap.get byWord word) in
  let docs := JSSet.add docs doc in
  assign (with_documentsByWord (JSMap.set byWord word docs));;
  for_of (seq 1 (length word)) (fun _ i => index_prefix doc word i) tt.

(** [addDocument(doc)], lines 88-107. *)
Definition addDocument (doc : ref) : M unit :=
  documents ← read _documents;
  assign (with_documents (JSSet.add documents doc));;
  ws ← get_words doc;
  a ← new_array (map toLocaleLowerCase ws);
  set_words doc a;;
  ws' ← get_words doc;
  for_of ws' (fun _ word => index_word doc word) tt.

(** The test of the [continue], lines 136-139. *)
Definition skip_word (i : nat) (searchWord : jsstring) : M bool :=
  orM (andM (bool_decide (i = 0%nat))
            (stops ← get_stopWords; mret (JSSet.has stops searchWord)))
      (andM (bool_decide (0 < i)%nat)
            (prefixes ← read _stopWordPrefixes; mret (JSSet.has prefixes searchWord))).

(** [i == 0 ? this._documentsByWord : this._documentsByPrefix], line 143. *)
Definition select_map (i : nat) : M (list (jsstring * list ref)) :=
  if bool_decide (i = 0%nat) then read _documentsByWord else read _documentsByPrefix.

(** Lines 145-148: the distance of a search word to a key of the index, made
    [Infinity] above the threshold. *)
Definition key_distance (searchWord docWord : jsstring) : M number :=
  let distance := Fin (Levenshtein._levenshtein 1 1 1 searchWord docWord) in
  threshold ← get_distanceThreshold;
  mret (if js_gt distance threshold then PInf else distance).

(** Lines 149-157: [for (let doc of docs)]. *)
Definition record_min (distance : number) (minDistanceByDoc : list (ref * number))
    (doc : ref) : list (ref * number) :=
  JSMap.set minDistanceByDoc doc
    (Math_min distance
       (match JSMap.get minDistanceByDoc doc with Some d => d | None => PInf end)).

(** Body of [for (let [docWord, docs] of map)], lines 144-158. *)
Definition key_body (searchWord : jsstring) (minDistanceByDoc : list (ref * number))
    (entry : jsstring * list ref) : M (list (ref * number)) :=
  let '(docWord, docs) := entry in
  distance ← key_distance searchWord docWord;
  mret (foldl (record_min distance) minDistanceByDoc docs).

(** Lines 159-161: [sumByDoc.set(doc, min + (sumByDoc.get(doc) || 0))]. *)
Definition add_min (sumByDoc : list (ref * number)) (entry : ref * number)
    : list (ref * number) :=
  let '(doc, min) := entry in
  JSMap.set sumByDoc doc (js_add min (or_zero (JSMap.get sumByDoc doc))).

(** Body of [for (let i = 0; i < searchWords.length; i++)], lines 135-161. *)
Definition word_body (searchWords : list jsstring) (sumByDoc : list (ref * number))
    (i : nat) : M (list (ref * number)) :=
  let searchWord := searchWords !!! i in
  skip ← skip_word i searchWord;
  if skip : bool then mret sumByDoc
  else
    map ← select_map i;
    minDistanceByDoc ← for_of map (key_body searchWord) [];
    mret (foldl add_min sumByDoc minDistanceByDoc).

(** Lines 163-170: one result per element of [this._documents]. *)
Definition make_result (sumByDoc : list (ref * number)) (doc : ref) : Result.t :=
  {| Result.document := doc;
     Result.score := match JSMap.get sumByDoc doc with
                     | None => PInf
                     | Some sum => sum
                     end |}.

(** The comparison function of line 171. *)
Definition by_score (a b : Result.t) : number :=
  js_sub (Result.score a) (Result.score b).

(** [score(searchString)], lines 120-173. *)
Definition score (searchString : value) : M (list Result.t) :=
  trimmed ← String_trim searchString;
  let searchWords := map toLocaleLowerCase (split_whitespace trimmed) in
  sumByDoc ← for_of (seq 0 (length searchWords)) (word_body searchWords) [];
  documents ← read _documents;
  let results := map (make_result sumByDoc) documents in
  mret (Array_sort by_score results).

End Methods.

(** ** What the loops compute

    The methods above read and assign the fields of [this] one statement at a
    time.  The functions of this section give the value of each loop in
    closed form; the facts below prove that the methods compute them. *)

Definition on_this (f : QueryScorer -> QueryScorer) (w : World) : World :=
  {| this := f (this w); objects := objects w; arrays := arrays w |}.

(** The set held under [key], with [doc] added. *)
Definition bucket_add (doc : ref) (index : list (jsstring * list ref))
    (key : jsstring) : list (jsstring * list ref) :=
  JSMap.set index key (JSSet.add (default [] (JSMap.get index key)) doc).

Definition prefixes_added (doc : ref) (word : jsstring)
    (index : list (jsstring * list ref)) : list (jsstring * list ref) :=
  foldl (fun index i => bucket_add doc index (substring0 word i)) index
        (seq 1 (length word)).

Definition word_indexed (doc : ref) (t : QueryScorer) (word : jsstring) : QueryScorer :=
  with_documentsByPrefix (prefixes_added doc word (_documentsByPrefix t))
    (with_documentsByWord (bucket_add doc (_documentsByWord t) word) t).

Definition stop_prefixes (stops : list jsstring) : list jsstring :=
  foldl (fun prefixes word =>
           foldl (fun prefixes i => JSSet.add prefixes (substring0 word i))
                 prefixes (seq 1 (length word)))
        [] stops.

(** The words of the document [doc], when it is an object whose [words] is
    an array. *)
Definition words_of (w : World) (doc : ref) : option (list jsstring) :=
  d ← objects w !! doc; arrays w !! doc_words d.

Definition skipped (t : QueryScorer) (i : nat) (searchWord : jsstring) : bool :=
  bool_decide (i = 0%nat) && JSSet.has (_stopWords t) searchWord
  || bool_decide (0 < i)%nat && JSSet.has (_stopWordPrefixes t) searchWord.

Definition selected (t : QueryScorer) (i : nat) : list (jsstring * list ref) :=
  if bool_decide (i = 0%nat) then _documentsByWord t else _documentsByPrefix t.

Definition clamped (t : QueryScorer) (searchWord docWord : jsstring) : number :=
  let distance := Fin (Levenshtein._levenshtein 1 1 1 searchWord docWord) in
  if js_gt distance (_distanceThreshold t) then PInf else distance.

Definition key_step (t : QueryScorer) (searchWord : jsstring)
    (minDistanceByDoc : list (ref * number)) (entry : jsstring * list ref)
    : list (ref * number) :=
  foldl (record_min (clamped t searchWord entry.1)) minDistanceByDoc entry.2.

Definition minima (t : QueryScorer) (i : nat) (searchWord : jsstring)
    : list (ref * number) :=
  foldl (key_step t searchWord) [] (selected t i).

Definition word_step (t : QueryScorer) (searchWords : list jsstring)
    (sumByDoc : list (ref * number)) (i : nat) : list (ref * number) :=
  if skipped t i (searchWords !!! i) then sumByDoc
  else foldl add_min sumByDoc (minima t i (searchWords !!! i)).

Definition sums (t : QueryScorer) (searchWords : list jsstring) : list (ref * number) :=
  foldl (word_step t searchWords) [] (seq 0 (length searchWords)).

(** The value read from a [Map] of distances, [Infinity] when absent. *)
Definition or_Infinity (m : list (ref * number)) (doc : ref) : number :=
  match JSMap.get m doc with Some d => d | None => PInf end.

(** A score: a sum of edit distances, or [Infinity]. *)
Definition is_score (n : number) : Prop :=
  match n with Fin z => 0 <= z | PInf => True | _ => False end.

(** Ascending order on scores. *)
Definition score_le (a b : number) : Prop :=
  match a, b with
  | Fin x, Fin y => x <= y
  | Fin _, PInf | PInf, PInf => True
  | _, _ => False
  end.

(** A [Map] whose values are all scores. *)
Definition scores (m : list (ref * number)) : Prop :=
  Forall (fun entry => is_score entry.2) m.

(** The order of the returned array: scores from low to high. *)
Definition ascending (a b : Result.t) : Prop :=
  score_le (Result.score a) (Result.score b).

Section Histories.
Context {locale : Locale}.

Definition query_words (searchString : jsstring) : list jsstring :=
  map toLocaleLowerCase (split_whitespace (trim searchString)).

Definition ranking (t : QueryScorer) (searchString : jsstring) : list Result.t :=
  Array_sort by_score
    (map (make_result (sums t (query_words searchString))) (_documents t)).

(** [p] is a prefix of [word] of length 1 up to the length of [word]. *)
Definition is_prefix_of (p word : jsstring) : Prop :=
  exists n, (1 <= n <= length word)%nat /\ p = substring0 word n.

(** [doc] is in the set that [index] holds under [key]. *)
Definition in_bucket (index : list (jsstring * list ref)) (key : jsstring)
    (doc : ref) : Prop :=
  exists docs, JSMap.get index key = Some docs /\ doc ∈ docs.

(** What the fields of a scorer hold after the stop words were set from
    [stops] and the documents [docs] were added. *)
Record consistent (stops : list jsstring) (docs : list (ref * list jsstring))
    (t : QueryScorer) : Prop := {
  documents_NoDup : NoDup (_documents t);
  documents_added : forall doc, doc ∈ _documents t <-> doc ∈ docs.*1;
  byWord_NoDup : NoDup (JSMap.keys (_documentsByWord t));
  byWord_keys : forall k,
    k ∈ JSMap.keys (_documentsByWord t) <->
    exists doc ws x, (doc, ws) ∈ docs /\ x ∈ ws /\ k = toLocaleLowerCase x;
  byWord_bucket : forall doc ws x,
    (doc, ws) ∈ docs -> x ∈ ws ->
    in_bucket (_documentsByWord t) (toLocaleLowerCase x) doc;
  byPrefix_NoDup : NoDup (JSMap.keys (_documentsByPrefix t));
  byPrefix_keys : forall k,
    k ∈ JSMap.keys (_documentsByPrefix t) <->
    exists doc ws x, (doc, ws) ∈ docs /\ x ∈ ws /\
                     is_prefix_of k (toLocaleLowerCase x);
  stopWords_set : forall x,
    x ∈ _stopWords t <-> exists s, s ∈ stops /\ x = toLocaleLowerCase s;
  stopWordPrefixes_set : forall p,
    p ∈ _stopWordPrefixes t <->
    exists s, s ∈ stops /\ is_prefix_of p (toLocaleLowerCase s)
}.

(** The worlds a caller can reach through the interface of the class.
    [history stops docs w]: the scorer of [w] was constructed, its stop words
    were last set from the array [stops], and [docs] lists the calls of
    [addDocument] in order, each with the document passed and the words it
    had at the call (none when the call raised). *)
Inductive history : list jsstring -> list (ref * list jsstring) -> World -> Prop :=
| history_new opts objs arrs :
    history (default [] (opt_stopWords opts)) [] (new_QueryScorer opts objs arrs)
| history_addDocument stops docs w doc :
    history stops docs w ->
    history stops (docs ++ [(doc, default [] (words_of w doc))]) (addDocument doc w).1
| history_score stops docs w searchString :
    history stops docs w ->
    history stops docs (score searchString w).1
| history_set_stopWords stops docs w array :
    history stops docs w ->
    history array docs (set_stopWords array w).1
| history_set_distanceThreshold stops docs w v :
    history stops docs w ->
    history stops docs (set_distanceThreshold v w).1
| history_caller stops docs w objs arrs :
    history stops docs w ->
    history stops docs {| this := this w; objects := objs; arrays := arrs |}.

End Histories.

(** ** A concrete host for examples *)

(** String literals as JavaScript strings. *)
Definition js (s : string) : jsstring := map N_of_ascii (list_ascii_of_string s).

(** Lower-casing of the letters A-Z alone: what [toLocaleLowerCase] does on
    ASCII strings outside the Turkic and Lithuanian locales. *)
Definition ascii_lower (c : codeunit) : codeunit :=
  if ((65 <=? c) && (c <=? 90))%N then (c + 32)%N else c.

Definition ascii_locale : Locale := map ascii_lower.

(** The scorer of the browser test: threshold 1, stop word "stop", and the
    documents fruits (object 0), iceCreams (1) and animals (2), whose arrays
    of words are the arrays 0, 1 and 2 of the store. *)
Definition test_objects : gmap ref Document :=
  <[0%nat := {| doc_id := js "fruits"; doc_words := 0%nat |}]>
  (<[1%nat := {| doc_id := js "iceCreams"; doc_words := 1%nat |}]>
  (<[2%nat := {| doc_id := js "animals"; doc_words := 2%nat |}]> ∅)).

Definition test_arrays : gmap ref (list jsstring) :=
  <[0%nat := map js ["apple"; "pear"; "banana"; "orange"; "pomegranate"]%string]>
  (<[1%nat := map js ["chocolate"; "vanilla"; "butterscotch"]%string]>
  (<[2%nat := map js ["aardvark"; "badger"; "hamster"; "elephant"]%string]> ∅)).

Definition test_options : Options :=
  {| opt_distanceThreshold := Some (Fin 1); opt_stopWords := Some [js "stop"] |}.

(** The scorer of the test, constructed, and after the three documents
    were added. *)
Definition test_world0 : World :=
  @new_QueryScorer ascii_locale test_options test_objects test_arrays.

Definition test_world : World :=
  foldl (fun w doc => (@addDocument ascii_locale doc w).1) test_world0 [0; 1; 2]%nat.

Definition test_docs : list (ref * list jsstring) :=
  [(0%nat, map js ["apple"; "pear"; "banana"; "orange"; "pomegranate"]%string);
   (1%nat, map js ["chocolate"; "vanilla"; "butterscotch"]%string);
   (2%nat, map js ["aardvark"; "badger"; "hamster"; "elephant"]%string)].

(** A scorer with the stop word "stop" and one document, whose words are
    "stop" and "new york". *)
Definition stop_world : World :=
  (@addDocument ascii_locale 0%nat
     (@new_QueryScorer ascii_locale test_options
        (<[0%nat := {| doc_id := js "signs"; doc_words := 0%nat |}]> ∅)
        (<[0%nat := map js ["stop"; "new york"]%string]> ∅))).1.

(** A scorer with one document, whose only word has one letter. *)
Definition short_world : World :=
  (@addDocument ascii_locale 0%nat
     (@new_QueryScorer ascii_locale test_options
        (<[0%nat := {| doc_id := js "letters"; doc_words := 0%nat |}]> ∅)
        (<[0%nat := map js ["a"]%string]> ∅))).1.

(** What the test keeps of a ranking: the documents scoring at most the
    threshold, in order. *)
Definition test_matches (query : string) : option (list ref) :=
  match @score ascii_locale (VString (js query)) test_world with
  | (_, Normal results) =>
      Some (map Result.document
              (filter (fun r => js_le (Result.score r) (Fin 1) = true) results))
  | (_, Throw _) => None
  end.

(** * Facts *)

(** ** The edit distance *)

Module LevenshteinFacts.
Import Levenshtein.

Section Costs.
Variables costIns costRep costDel : Z.

Lemma dist_nil_l (b : jsstring) :
  dist costIns costRep costDel [] b = Z.of_nat (length b) * costIns.
Proof. by destruct b. Qed.

Lemma dist_nil_r (a : jsstring) :
  dist costIns costRep costDel a [] = Z.of_nat (length a) * costDel.
Proof. destruct a; simpl; lia. Qed.

Lemma dist_cons (x y : codeunit) (a b : jsstring) :
  dist costIns costRep costDel (x :: a) (y :: b) =
  Z.min (Z.min (dist costIns costRep costDel a b + (if N.eqb x y then 0 else costRep))
               (dist costIns costRep costDel a (y :: b) + costDel))
        (dist costIns costRep costDel (x :: a) b + costIns).
Proof. reflexivity. Qed.

Lemma dist_nonneg (a b : jsstring) :
  0 <= costIns -> 0 <= costRep -> 0 <= costDel ->
  0 <= dist costIns costRep costDel a b.
Proof.
  intros Hi Hr Hd. revert b. induction a as [|x a IHa]; intros b.
  - rewrite dist_nil_l. lia.
  - induction b as [|y b IHb].
    + rewrite dist_nil_r. lia.
    + rewrite dist_cons. specialize (IHa b) as H1. specialize (IHa (y :: b)) as H2.
      destruct (N.eqb x y); lia.
Qed.

Lemma ltb_min (c1 c0 : Z) : (if c1 <? c0 then c1 else c0) = Z.min c0 c1.
Proof. destruct (Z.ltb_spec c1 c0); lia. Qed.

Lemma rev_take_S (w : jsstring) (i : nat) :
  (i < length w)%nat -> rev (take (S i) w) = (w !!! i) :: rev (take i w).
Proof.
  intros Hi. rewrite (take_S_r w i (w !!! i)).
  - apply rev_unit.
  - by apply list_lookup_lookup_total_lt.
Qed.

Lemma cell_0_l (word1 word2 : jsstring) (j : nat) :
  (j <= length word2)%nat -> cell costIns costRep costDel word1 word2 0 j = Z.of_nat j * costIns.
Proof.
  intros Hj. unfold cell. rewrite take_0. simpl rev. rewrite dist_nil_l.
  rewrite length_rev, length_take. f_equal. lia.
Qed.

Lemma cell_0_r (word1 word2 : jsstring) (i : nat) :
  (i <= length word1)%nat -> cell costIns costRep costDel word1 word2 i 0 = Z.of_nat i * costDel.
Proof.
  intros Hi. unfold cell. rewrite (take_0 word2). simpl rev. rewrite dist_nil_r.
  rewrite length_rev, length_take. f_equal. lia.
Qed.

Lemma cell_S_S (word1 word2 : jsstring) (i j : nat) :
  (i < length word1)%nat -> (j < length word2)%nat ->
  cell costIns costRep costDel word1 word2 (S i) (S j) =
  Z.min (Z.min (cell costIns costRep costDel word1 word2 i j
                + (if N.eqb (word1 !!! i) (word2 !!! j) then 0 else costRep))
               (cell costIns costRep costDel word1 word2 i (S j) + costDel))
        (cell costIns costRep costDel word1 word2 (S i) j + costIns).
Proof.
  intros Hi Hj. unfold cell.
  rewrite (rev_take_S word1 i Hi), (rev_take_S word2 j Hj).
  apply dist_cons.
Qed.

Lemma first_row (word2 : jsstring) (word1 : jsstring) (n : nat) (p : list Z) :
  length p = S (length word2) -> (n <= S (length word2))%nat ->
  let p' := foldl (fun p i2 => <[i2 := Z.of_nat i2 * costIns]> p) p (seq 0 n) in
  length p' = S (length word2) /\
  forall j, (j < n)%nat -> p' !!! j = cell costIns costRep costDel word1 word2 0 j.
Proof.
  intros Hlen. induction n as [|n IH]; intros Hn; cbv zeta.
  - split; [done | lia].
  - rewrite seq_S, foldl_app. simpl. cbv zeta in IH. destruct IH as [IHl IHc]; [lia|].
    split; [by rewrite length_insert|].
    intros j Hj. destruct (decide (j = n)) as [->|Hne].
    + rewrite list_lookup_total_insert_eq by lia. rewrite cell_0_l; [done | lia].
    + rewrite list_lookup_total_insert_ne by done. apply IHc. lia.
Qed.

Lemma inner_loop (word1 word2 : jsstring) (i n : nat) (p1 p2 : list Z) :
  (i < length word1)%nat -> (n <= length word2)%nat ->
  row_upto costIns costRep costDel word1 word2 i (length word2) p1 ->
  row_upto costIns costRep costDel word1 word2 (S i) 0 p2 ->
  row_upto costIns costRep costDel word1 word2 (S i) n
    (foldl (inner_body costIns costRep costDel (word1 !!! i) word2 p1) p2 (seq 0 n)).
Proof.
  intros Hi Hn [Hl1 Hp1] Hp2. induction n as [|n IH]; [done|].
  rewrite seq_S, foldl_app. simpl. destruct IH as [IHl IHc]; [lia|].
  set (q := foldl _ p2 _) in *.
  unfold inner_body. split; [by rewrite length_insert|].
  intros j Hj. destruct (decide (j = S n)) as [->|Hne].
  - replace (n + 1)%nat with (S n) by lia.
    rewrite list_lookup_total_insert_eq by lia.
    rewrite cell_S_S by lia.
    rewrite (Hp1 n) by lia. rewrite (Hp1 (S n)) by lia. rewrite (IHc n) by lia.
    rewrite !ltb_min. reflexivity.
  - replace (n + 1)%nat with (S n) by lia.
    rewrite list_lookup_total_insert_ne by done. apply IHc. lia.
Qed.

Lemma outer_loop (word1 word2 : jsstring) (n : nat) (p1 p2 : list Z) :
  (n <= length word1)%nat ->
  row_upto costIns costRep costDel word1 word2 0 (length word2) p1 ->
  length p2 = S (length word2) ->
  let rows := foldl (outer_body costIns costRep costDel word1 word2 (length word2))
                    (p1, p2) (seq 0 n) in
  row_upto costIns costRep costDel word1 word2 n (length word2) rows.1 /\ length rows.2 = S (length word2).
Proof.
  intros Hn Hp1 Hl2. induction n as [|n IH]; [done|].
  cbv zeta. rewrite seq_S, foldl_app. simpl.
  destruct IH as [IHr IHl]; [lia|].
  destruct (foldl _ _ _) as [q1 q2]. simpl in *.
  split; [|apply IHr].
  apply inner_loop; [lia | lia | done |].
  split; [by rewrite length_insert|].
  intros j Hj. assert (j = 0%nat) as -> by lia.
  rewrite list_lookup_total_insert_eq by lia.
  destruct IHr as [_ IHc]. rewrite (IHc 0%nat) by lia.
  rewrite !cell_0_r by lia. lia.
Qed.

(** Past the three early returns the two rolling rows compute the textbook
    recurrence. *)
Lemma levenshtein_table (word1 word2 : jsstring) :
  word1 <> word2 -> word1 <> [] -> word2 <> [] ->
  _levenshtein costIns costRep costDel word1 word2 =
  dist costIns costRep costDel (rev word1) (rev word2).
Proof.
  intros Hne H1 H2. unfold _levenshtein.
  rewrite decide_False by done.
  rewrite decide_False by (by destruct word1).
  rewrite decide_False by (by destruct word2).
  cbv zeta.
  pose proof (first_row word2 word1 (length word2 + 1) (new_Array (length word2 + 1))) as Hfirst.
  cbv zeta in Hfirst. destruct Hfirst as [Hl Hc].
  { unfold new_Array. rewrite length_replicate. lia. }
  { lia. }
  set (p1 := foldl _ (new_Array _) _) in *.
  pose proof (outer_loop word1 word2 (length word1) p1 (new_Array (length word2 + 1))) as Hout.
  cbv zeta in Hout. destruct Hout as [[_ Hrow] _].
  { lia. }
  { split; [done|]. intros j Hj. apply Hc. lia. }
  { unfold new_Array. rewrite length_replicate. lia. }
  destruct (foldl _ (p1, _) _) as [q1 q2]. simpl in Hrow.
  rewrite (Hrow (length word2)) by lia.
  unfold cell. by rewrite !firstn_all.
Qed.

End Costs.

Lemma dist_swap (costIns costRep costDel : Z) (a b : jsstring) :
  dist costIns costRep costDel a b = dist costDel costRep costIns b a.
Proof.
  revert b. induction a as [|x a IHa]; intros b.
  - by rewrite dist_nil_l, dist_nil_r.
  - induction b as [|y b IHb].
    + by rewrite dist_nil_l, dist_nil_r.
    + rewrite !dist_cons, IHb, (IHa b), (IHa (y :: b)), (N.eqb_sym y x). lia.
Qed.

Lemma levenshtein_same (costIns costRep costDel : Z) (word : jsstring) :
  _levenshtein costIns costRep costDel word word = 0.
Proof. unfold _levenshtein. by rewrite decide_True. Qed.

Lemma levenshtein_empty (costIns costRep costDel : Z) (s : jsstring) :
  _levenshtein costIns costRep costDel [] s = Z.of_nat (length s) * costIns /\
  _levenshtein costIns costRep costDel s [] = Z.of_nat (length s) * costDel.
Proof.
  unfold _levenshtein.
  destruct s as [|c s]; [by rewrite !decide_True|].
  rewrite !decide_False by done. simpl length.
  rewrite (decide_True (P := 0%nat = 0%nat)) by done.
  by rewrite (decide_False (P := S (length s) = 0%nat)) by done.
Qed.

Lemma levenshtein_nonneg (costIns costRep costDel : Z) (word1 word2 : jsstring) :
  0 <= costIns -> 0 <= costRep -> 0 <= costDel ->
  0 <= _levenshtein costIns costRep costDel word1 word2.
Proof.
  intros Hi Hr Hd.
  destruct (decide (word1 = word2)) as [Heq|Hne].
  { unfold _levenshtein. by rewrite decide_True. }
  destruct (decide (word1 = [])) as [->|H1].
  { unfold _levenshtein. rewrite decide_False by done. simpl. lia. }
  destruct (decide (word2 = [])) as [->|H2].
  { unfold _levenshtein. rewrite decide_False by done.
    rewrite decide_False by (by destruct word1). simpl. lia. }
  rewrite levenshtein_table by done. by apply dist_nonneg.
Qed.

End LevenshteinFacts.

(** ** Running the methods *)

Lemma bind_normal {A B} (m : M A) (k : A -> M B) (w w' : World) (a : A) :
  m w = (w', Normal a) -> (m ≫= k) w = k a w'.
Proof. intros H. unfold mbind, M_bind. by rewrite H. Qed.

Lemma bind_throw {A B} (m : M A) (k : A -> M B) (w w' : World) (e : exn) :
  m w = (w', Throw e) -> (m ≫= k) w = (w', Throw e).
Proof. intros H. unfold mbind, M_bind. by rewrite H. Qed.

Lemma on_this_id (w : World) : on_this (fun t => t) w = w.
Proof. by destruct w. Qed.

Lemma on_this_compose (f g : QueryScorer -> QueryScorer) (w : World) :
  on_this g (on_this f w) = on_this (fun t => g (f t)) w.
Proof. reflexivity. Qed.

Lemma assign_run (f : QueryScorer -> QueryScorer) (w : World) :
  assign f w = (on_this f w, Normal tt).
Proof. reflexivity. Qed.

(** A loop whose body only reads [this] leaves the world as it is. *)
Lemma for_of_reads {A S} (l : list A) (body : S -> A -> M S)
    (g : QueryScorer -> S -> A -> S) :
  (forall s x w, body s x w = (w, Normal (g (this w) s x))) ->
  forall s w, for_of l body s w = (w, Normal (foldl (g (this w)) s l)).
Proof.
  intros Hbody. induction l as [|x l IH]; intros s w; [done|].
  simpl. erewrite bind_normal by apply Hbody. apply IH.
Qed.

(** A loop whose body only assigns fields of [this]. *)
Lemma for_of_assigns {A} (l : list A) (body : unit -> A -> M unit)
    (f : QueryScorer -> A -> QueryScorer) :
  (forall s x w, body s x w = (on_this (fun t => f t x) w, Normal tt)) ->
  forall w, for_of l body tt w = (on_this (fun t => foldl f t l) w, Normal tt).
Proof.
  intros Hbody. induction l as [|x l IH]; intros w.
  - simpl. by rewrite on_this_id.
  - simpl. erewrite bind_normal by apply Hbody. by rewrite IH.
Qed.

Section Runs.
Context {locale : Locale}.

Lemma skip_word_run (i : nat) (searchWord : jsstring) (w : World) :
  skip_word i searchWord w = (w, Normal (skipped (this w) i searchWord)).
Proof.
  unfold skip_word, skipped, orM, andM, get_stopWords, read, mbind, M_bind, mret, M_ret.
  destruct (bool_decide (i = 0%nat)), (bool_decide (0 < i)%nat); simpl;
    by repeat destruct (JSSet.has _ _).
Qed.

Lemma select_map_run (i : nat) (w : World) :
  select_map i w = (w, Normal (selected (this w) i)).
Proof. unfold select_map, selected. by destruct (bool_decide _). Qed.

Lemma key_distance_run (searchWord docWord : jsstring) (w : World) :
  key_distance searchWord docWord w = (w, Normal (clamped (this w) searchWord docWord)).
Proof. reflexivity. Qed.

Lemma key_body_run (searchWord : jsstring) (m : list (ref * number))
    (entry : jsstring * list ref) (w : World) :
  key_body searchWord m entry w = (w, Normal (key_step (this w) searchWord m entry)).
Proof. by destruct entry. Qed.

Lemma minima_run (i : nat) (searchWord : jsstring) (w : World) :
  for_of (selected (this w) i) (key_body searchWord) [] w =
  (w, Normal (minima (this w) i searchWord)).
Proof.
  unfold minima.
  apply (for_of_reads _ _ (fun t => key_step t searchWord)).
  intros. apply key_body_run.
Qed.

Lemma word_body_run (searchWords : list jsstring) (sumByDoc : list (ref * number))
    (i : nat) (w : World) :
  word_body searchWords sumByDoc i w =
  (w, Normal (word_step (this w) searchWords sumByDoc i)).
Proof.
  unfold word_body, word_step.
  rewrite (bind_normal _ _ _ _ _ (skip_word_run _ _ _)).
  destruct (skipped _ _ _); [done|].
  rewrite (bind_normal _ _ _ _ _ (select_map_run _ _)).
  by rewrite (bind_normal _ _ _ _ _ (minima_run _ _ _)).
Qed.

Lemma sums_run (searchWords : list jsstring) (w : World) :
  for_of (seq 0 (length searchWords)) (word_body searchWords) [] w =
  (w, Normal (sums (this w) searchWords)).
Proof.
  unfold sums.
  apply (for_of_reads _ _ (fun t => word_step t searchWords)).
  intros. apply word_body_run.
Qed.

(** On a string [score] returns, leaves the world as it is, and its value
    is [ranking]. *)
Lemma score_run (searchString : jsstring) (w : World) :
  score (VString searchString) w = (w, Normal (ranking (this w) searchString)).
Proof.
  unfold score. simpl String_trim.
  rewrite (bind_normal _ _ w w (trim searchString)) by done.
  cbv zeta. fold (query_words searchString).
  by rewrite (bind_normal _ _ _ _ _ (sums_run _ _)).
Qed.

Lemma score_not_string (v : value) (w : World) :
  (forall s, v <> VString s) -> score v w = (w, Throw TypeError).
Proof. intros Hv. destruct v; try done. by destruct (Hv s). Qed.

Lemma score_world (v : value) (w : World) : (score v w).1 = w.
Proof.
  destruct v; try done. by rewrite score_run.
Qed.

End Runs.

(** ** Running the constructor, the setters and [addDocument] *)

(** A loop that assigns one field, computed from its previous value. *)
Lemma foldl_field {T V A} (getf : T -> V) (setf : V -> T -> T) (h : V -> A -> V)
    (l : list A) :
  (forall v t, getf (setf v t) = v) ->
  (forall v v' t, setf v (setf v' t) = setf v t) ->
  (forall t, setf (getf t) t = t) ->
  forall t, foldl (fun t x => setf (h (getf t) x) t) t l = setf (foldl h (getf t) l) t.
Proof.
  intros Hgs Hss Hsg. induction l as [|x l IH]; intros t; simpl.
  - by rewrite Hsg.
  - by rewrite IH, Hgs, Hss.
Qed.

Section Runs2.
Context {locale : Locale}.

Lemma stop_prefix_loop (word : jsstring) (w : World) :
  for_of (seq 1 (length word)) (fun (_ : unit) i =>
      prefixes ← read _stopWordPrefixes;
      assign (with_stopWordPrefixes (JSSet.add prefixes (substring0 word i)))) tt w =
  (on_this (fun t => with_stopWordPrefixes
                       (foldl (fun prefixes i => JSSet.add prefixes (substring0 word i))
                              (_stopWordPrefixes t) (seq 1 (length word))) t) w,
   Normal tt).
Proof.
  rewrite (for_of_assigns _ _ (fun t i =>
    with_stopWordPrefixes (JSSet.add (_stopWordPrefixes t) (substring0 word i)) t))
    by done.
  f_equal. unfold on_this. f_equal.
  apply (foldl_field _stopWordPrefixes with_stopWordPrefixes
           (fun prefixes i => JSSet.add prefixes (substring0 word i))); try done.
  by intros [].
Qed.

Lemma set_stopWords_run (array : list jsstring) (w : World) :
  let stops := foldl JSSet.add [] (map toLocaleLowerCase array) in
  set_stopWords array w =
  (on_this (fun t => with_stopWordPrefixes (stop_prefixes stops) (with_stopWords stops t)) w,
   Normal stops).
Proof.
  intros stops. unfold set_stopWords. fold stops.
  rewrite (bind_normal _ _ _ _ _ (assign_run _ _)).
  rewrite (bind_normal _ _ _ _ _ (assign_run _ _)).
  rewrite on_this_compose.
  erewrite bind_normal by reflexivity. simpl _stopWords.
  erewrite bind_normal.
  2: { apply (for_of_assigns _ _ (fun t word =>
         with_stopWordPrefixes
           (foldl (fun prefixes i => JSSet.add prefixes (substring0 word i))
                  (_stopWordPrefixes t) (seq 1 (length word))) t)).
       intros [] word w'. apply stop_prefix_loop. }
  rewrite on_this_compose. unfold read, on_this. simpl.
  rewrite (foldl_field _stopWordPrefixes with_stopWordPrefixes
     (fun prefixes word => foldl (fun prefixes i => JSSet.add prefixes (substring0 word i))
                             prefixes (seq 1 (length word))));
    try done.
  by intros [].
Qed.

Lemma set_distanceThreshold_run (v : number) (w : World) :
  set_distanceThreshold v w = (on_this (with_distanceThreshold v) w, Normal v).
Proof. reflexivity. Qed.

Lemma constructor_run (opts : Options) (w : World) :
  let stops := foldl JSSet.add [] (map toLocaleLowerCase (default [] (opt_stopWords opts))) in
  constructor opts w =
  ({| this :=
        {| _distanceThreshold := default (Fin 1) (opt_distanceThreshold opts);
           _stopWords := stops;
           _stopWordPrefixes := stop_prefixes stops;
           _documents := []; _documentsByWord := []; _documentsByPrefix := [] |};
      objects := objects w; arrays := arrays w |}, Normal tt).
Proof.
  intros stops. unfold constructor.
  rewrite (bind_normal _ _ _ _ _ (set_distanceThreshold_run _ _)).
  rewrite (bind_normal _ _ _ _ _ (set_stopWords_run _ _)).
  reflexivity.
Qed.

Lemma index_prefix_run (doc : ref) (word : jsstring) (i : nat) (w : World) :
  index_prefix doc word i w =
  (on_this (fun t => with_documentsByPrefix
                       (bucket_add doc (_documentsByPrefix t) (substring0 word i)) t) w,
   Normal tt).
Proof. reflexivity. Qed.

Lemma index_word_run (doc : ref) (word : jsstring) (w : World) :
  index_word doc word w = (on_this (fun t => word_indexed doc t word) w, Normal tt).
Proof.
  unfold index_word.
  erewrite bind_normal by reflexivity.
  rewrite (bind_normal _ _ _ _ _ (assign_run _ _)).
  rewrite (for_of_assigns _ _ (fun t i =>
    with_documentsByPrefix (bucket_add doc (_documentsByPrefix t) (substring0 word i)) t))
    by (intros; apply index_prefix_run).
  rewrite on_this_compose. f_equal. unfold on_this. f_equal.
  rewrite (foldl_field _documentsByPrefix with_documentsByPrefix
     (fun index i => bucket_add doc index (substring0 word i))); try done.
  by intros [].
Qed.

(** [addDocument] on a document that is an object with an array of words. *)
Lemma addDocument_run (doc : ref) (d : Document) (ws : list jsstring) (w : World) :
  objects w !! doc = Some d -> arrays w !! doc_words d = Some ws ->
  let a := fresh (dom (arrays w)) in
  addDocument doc w =
  ({| this := foldl (word_indexed doc)
                (with_documents (JSSet.add (_documents (this w)) doc) (this w))
                (map toLocaleLowerCase ws);
      objects := <[doc := {| doc_id := doc_id d; doc_words := a |}]> (objects w);
      arrays := <[a := map toLocaleLowerCase ws]> (arrays w) |}, Normal tt).
Proof.
  intros Hd Hws a. unfold addDocument.
  erewrite bind_normal by reflexivity.
  rewrite (bind_normal _ _ _ _ _ (assign_run _ _)).
  erewrite bind_normal.
  2: { unfold get_words. simpl. by rewrite Hd, Hws. }
  erewrite bind_normal by reflexivity. fold a.
  erewrite bind_normal.
  2: { unfold set_words. simpl. by rewrite Hd. }
  erewrite bind_normal.
  2: { unfold get_words. simpl. rewrite lookup_insert_eq. simpl.
       by rewrite lookup_insert_eq. }
  by rewrite (for_of_assigns _ _ (word_indexed doc))
    by (intros; apply index_word_run).
Qed.

(** [addDocument] on anything else: the document is in [_documents] when
    the [TypeError] is raised. *)
Lemma addDocument_raise (doc : ref) (w : World) :
  words_of w doc = None ->
  addDocument doc w =
  (on_this (with_documents (JSSet.add (_documents (this w)) doc)) w, Throw TypeError).
Proof.
  intros Hnone. unfold addDocument.
  erewrite bind_normal by reflexivity.
  rewrite (bind_normal _ _ _ _ _ (assign_run _ _)).
  erewrite bind_throw; [done|].
  unfold get_words, words_of in *. simpl.
  destruct (objects w !! doc) as [d|]; simpl in *; [|done].
  by rewrite Hnone.
Qed.

Lemma words_of_Some (w : World) (doc : ref) (ws : list jsstring) :
  words_of w doc = Some ws <->
  exists d, objects w !! doc = Some d /\ arrays w !! doc_words d = Some ws.
Proof.
  unfold words_of. destruct (objects w !! doc) as [d|]; simpl.
  - split; [eauto|]. by intros (d' & [= <-] & ?).
  - split; [done|]. by intros (d' & ? & ?).
Qed.

(** The scorer after [addDocument], whether it returns or raises. *)
Lemma addDocument_this (doc : ref) (w : World) :
  this (addDocument doc w).1 =
  foldl (word_indexed doc)
    (with_documents (JSSet.add (_documents (this w)) doc) (this w))
    (map toLocaleLowerCase (default [] (words_of w doc))).
Proof.
  destruct (words_of w doc) as [ws|] eqn:Hws.
  - apply words_of_Some in Hws as (d & Hd & Hws).
    by rewrite (addDocument_run doc d ws).
  - by rewrite addDocument_raise.
Qed.

End Runs2.

(** ** Set and Map objects *)

Module JSSetFacts.
Section Elt.
Context {A : Type} `{EqDecision A}.
Implicit Types (s l : list A) (x y : A).

Lemma elem_of_add s x y : y ∈ JSSet.add s x <-> y ∈ s \/ y = x.
Proof.
  unfold JSSet.add, JSSet.has. case_bool_decide as Hx.
  - split; [by left|]. by intros [?| ->].
  - rewrite elem_of_app, list_elem_of_singleton. tauto.
Qed.

Lemma NoDup_add s x : NoDup s -> NoDup (JSSet.add s x).
Proof.
  intros Hs. unfold JSSet.add, JSSet.has. case_bool_decide as Hx; [done|].
  apply NoDup_app. split_and!; [done | | apply NoDup_singleton].
  intros y Hy ->%list_elem_of_singleton. done.
Qed.

Lemma elem_of_add_all s l y : y ∈ foldl JSSet.add s l <-> y ∈ s \/ y ∈ l.
Proof.
  revert s. induction l as [|x l IH]; intros s; simpl.
  - rewrite elem_of_nil. tauto.
  - rewrite IH, elem_of_add, elem_of_cons. tauto.
Qed.

Lemma NoDup_add_all s l : NoDup s -> NoDup (foldl JSSet.add s l).
Proof.
  revert s. induction l as [|x l IH]; intros s Hs; simpl; [done|].
  by apply IH, NoDup_add.
Qed.

Lemma has_true s x : JSSet.has s x = true <-> x ∈ s.
Proof. unfold JSSet.has. by rewrite bool_decide_eq_true. Qed.

End Elt.
End JSSetFacts.

Module JSMapFacts.
Section KV.
Context {K V : Type} `{EqDecision K}.
Implicit Types (m : list (K * V)) (k : K) (v : V).

Lemma get_set_eq m k v : JSMap.get (JSMap.set m k v) k = Some v.
Proof.
  induction m as [|[k' v'] m IH]; simpl.
  - by rewrite decide_True.
  - destruct (decide (k = k')) as [->|Hne]; simpl.
    + by rewrite decide_True.
    + by rewrite decide_False.
Qed.

Lemma get_set_ne m k k' v : k <> k' -> JSMap.get (JSMap.set m k v) k' = JSMap.get m k'.
Proof.
  intros Hne. induction m as [|[k0 v0] m IH]; simpl.
  - by rewrite decide_False.
  - destruct (decide (k = k0)) as [->|Hne0]; simpl.
    + by rewrite !decide_False.
    + by rewrite IH.
Qed.

Lemma keys_set m k v k' : k' ∈ JSMap.keys (JSMap.set m k v) <-> k' ∈ JSMap.keys m \/ k' = k.
Proof.
  unfold JSMap.keys. induction m as [|[k0 v0] m IH]; simpl.
  - rewrite list_elem_of_singleton, elem_of_nil. tauto.
  - destruct (decide (k = k0)) as [->|Hne]; simpl.
    + rewrite !elem_of_cons. tauto.
    + rewrite !elem_of_cons, IH. tauto.
Qed.

Lemma NoDup_keys_set m k v : NoDup (JSMap.keys m) -> NoDup (JSMap.keys (JSMap.set m k v)).
Proof.
  unfold JSMap.keys. induction m as [|[k0 v0] m IH]; simpl; intros Hm.
  - apply NoDup_singleton.
  - apply NoDup_cons in Hm as [Hk0 Hm].
    destruct (decide (k = k0)) as [->|Hne]; simpl.
    + by apply NoDup_cons.
    + apply NoDup_cons. split; [|by apply IH].
      intros [Hin| ->]%(keys_set m k v k0); done.
Qed.

Lemma get_Some_elem_of m k v : JSMap.get m k = Some v -> (k, v) ∈ m.
Proof.
  induction m as [|[k0 v0] m IH]; simpl; [done|].
  destruct (decide (k = k0)) as [->|Hne].
  - intros [= ->]. by left.
  - intros Hg. right. by apply IH.
Qed.

Lemma get_None m k : JSMap.get m k = None <-> k ∉ JSMap.keys m.
Proof.
  unfold JSMap.keys. induction m as [|[k0 v0] m IH]; simpl.
  - split; [|done]. intros _. apply not_elem_of_nil.
  - rewrite not_elem_of_cons. destruct (decide (k = k0)) as [->|Hne].
    + split; [done|]. by intros [? _].
    + rewrite IH. tauto.
Qed.

Lemma get_is_Some m k : is_Some (JSMap.get m k) <-> k ∈ JSMap.keys m.
Proof.
  destruct (JSMap.get m k) as [v|] eqn:Hg.
  - split; [|by eauto]. intros _.
    destruct (decide (k ∈ JSMap.keys m)) as [|Hn]; [done|].
    apply get_None in Hn. congruence.
  - split; [by intros [? ?]|]. intros Hin. by apply get_None in Hg.
Qed.

Lemma elem_of_keys m k v : (k, v) ∈ m -> k ∈ JSMap.keys m.
Proof. intros Hin. unfold JSMap.keys. apply list_elem_of_fmap. by exists (k, v). Qed.

End KV.
End JSMapFacts.

(** ** The index after a history of calls *)

Section Index.
Implicit Types (index : list (jsstring * list ref)) (doc : ref) (key k : jsstring).

Lemma bucket_add_keys doc index key k :
  k ∈ JSMap.keys (bucket_add doc index key) <-> k ∈ JSMap.keys index \/ k = key.
Proof. apply JSMapFacts.keys_set. Qed.

Lemma bucket_add_in doc index key : in_bucket (bucket_add doc index key) key doc.
Proof.
  unfold in_bucket, bucket_add. rewrite JSMapFacts.get_set_eq.
  eexists. split; [done|]. apply JSSetFacts.elem_of_add. by right.
Qed.

Lemma bucket_add_keeps doc index key k d :
  in_bucket index k d -> in_bucket (bucket_add doc index key) k d.
Proof.
  intros (docs & Hget & Hd). unfold in_bucket, bucket_add.
  destruct (decide (key = k)) as [->|Hne].
  - rewrite JSMapFacts.get_set_eq, Hget. simpl.
    eexists. split; [done|]. apply JSSetFacts.elem_of_add. by left.
  - rewrite JSMapFacts.get_set_ne by done. eauto.
Qed.

Lemma words_added_keys doc (l : list jsstring) index k :
  k ∈ JSMap.keys (foldl (bucket_add doc) index l) <-> k ∈ JSMap.keys index \/ k ∈ l.
Proof.
  revert index. induction l as [|x l IH]; intros index; simpl.
  - rewrite elem_of_nil. tauto.
  - rewrite IH, bucket_add_keys, elem_of_cons. tauto.
Qed.

Lemma words_added_NoDup doc (l : list jsstring) index :
  NoDup (JSMap.keys index) -> NoDup (JSMap.keys (foldl (bucket_add doc) index l)).
Proof.
  revert index. induction l as [|x l IH]; intros index Hnd; simpl; [done|].
  by apply IH, JSMapFacts.NoDup_keys_set.
Qed.

Lemma prefixes_added_NoDup doc (word : jsstring) index :
  NoDup (JSMap.keys index) -> NoDup (JSMap.keys (prefixes_added doc word index)).
Proof.
  unfold prefixes_added. generalize (seq 1 (length word)) as l. intros l.
  revert index. induction l as [|i l IH]; intros index Hnd; simpl; [done|].
  by apply IH, JSMapFacts.NoDup_keys_set.
Qed.

Lemma all_prefixes_added_NoDup doc (l : list jsstring) index :
  NoDup (JSMap.keys index) ->
  NoDup (JSMap.keys (foldl (fun index word => prefixes_added doc word index) index l)).
Proof.
  revert index. induction l as [|x l IH]; intros index Hnd; simpl; [done|].
  by apply IH, prefixes_added_NoDup.
Qed.

Lemma words_added_keeps doc (l : list jsstring) index k d :
  in_bucket index k d -> in_bucket (foldl (bucket_add doc) index l) k d.
Proof.
  revert index. induction l as [|x l IH]; intros index Hin; simpl; [done|].
  by apply IH, bucket_add_keeps.
Qed.

Lemma words_added_in doc (l : list jsstring) index key :
  key ∈ l -> in_bucket (foldl (bucket_add doc) index l) key doc.
Proof.
  revert index. induction l as [|x l IH]; intros index Hin; simpl.
  - by apply elem_of_nil in Hin.
  - apply elem_of_cons in Hin as [->|Hin].
    + apply words_added_keeps, bucket_add_in.
    + by apply IH.
Qed.

Lemma is_prefix_of_seq (p word : jsstring) :
  is_prefix_of p word <-> exists i, i ∈ seq 1 (length word) /\ p = substring0 word i.
Proof.
  unfold is_prefix_of. split; intros (n & Hn & ->); exists n; split; try done.
  - apply elem_of_seq. lia.
  - apply elem_of_seq in Hn. lia.
Qed.

Lemma prefixes_added_keys doc (word : jsstring) index k :
  k ∈ JSMap.keys (prefixes_added doc word index) <->
  k ∈ JSMap.keys index \/ is_prefix_of k word.
Proof.
  rewrite is_prefix_of_seq. unfold prefixes_added.
  generalize (seq 1 (length word)) as l. intros l.
  revert index. induction l as [|i l IH]; intros index; simpl.
  - split; [by left|]. intros [?|(i & Hi & _)]; [done|]. by apply elem_of_nil in Hi.
  - rewrite IH, bucket_add_keys. split.
    + intros [[?| ->]|(j & Hj & ->)]; [by left | | ].
      * right. exists i. split; [left|done].
      * right. exists j. split; [by right|done].
    + intros [?|(j & Hj & ->)]; [by left; left|].
      apply elem_of_cons in Hj as [->|Hj]; [by left; right|].
      right. by exists j.
Qed.

Lemma all_prefixes_added_keys doc (l : list jsstring) index k :
  k ∈ JSMap.keys (foldl (fun index word => prefixes_added doc word index) index l) <->
  k ∈ JSMap.keys index \/ exists word, word ∈ l /\ is_prefix_of k word.
Proof.
  revert index. induction l as [|x l IH]; intros index; simpl.
  - split; [by left|]. intros [?|(x & Hx & _)]; [done|]. by apply elem_of_nil in Hx.
  - rewrite IH, prefixes_added_keys. split.
    + intros [[?|?]|(y & Hy & ?)]; [by left | | ].
      * right. exists x. split; [left|done].
      * right. exists y. split; [by right|done].
    + intros [?|(y & Hy & Hp)]; [by left; left|].
      apply elem_of_cons in Hy as [->|Hy]; [by left; right|].
      right. by exists y.
Qed.

Lemma stop_prefixes_elem (stops : list jsstring) (p : jsstring) :
  p ∈ stop_prefixes stops <-> exists word, word ∈ stops /\ is_prefix_of p word.
Proof.
  unfold stop_prefixes.
  assert (forall l acc,
    p ∈ foldl (fun prefixes word =>
                 foldl (fun prefixes i => JSSet.add prefixes (substring0 word i))
                       prefixes (seq 1 (length word))) acc l <->
    p ∈ acc \/ exists word, word ∈ l /\ is_prefix_of p word) as Hgen.
  { induction l as [|x l IH]; intros acc; simpl.
    - split; [by left|]. intros [?|(x & Hx & _)]; [done|]. by apply elem_of_nil in Hx.
    - rewrite IH.
      assert (forall l' acc',
        p ∈ foldl (fun prefixes i => JSSet.add prefixes (substring0 x i)) acc' l' <->
        p ∈ acc' \/ exists i, i ∈ l' /\ p = substring0 x i) as Hin.
      { induction l' as [|i l' IH']; intros acc'; simpl.
        - split; [by left|]. intros [?|(i & Hi & _)]; [done|]. by apply elem_of_nil in Hi.
        - rewrite IH', JSSetFacts.elem_of_add. split.
          + intros [[?| ->]|(j & Hj & ->)]; [by left | | ].
            * right. exists i. split; [left|done].
            * right. exists j. split; [by right|done].
          + intros [?|(j & Hj & ->)]; [by left; left|].
            apply elem_of_cons in Hj as [->|Hj]; [by left; right|].
            right. by exists j. }
      rewrite Hin, <- is_prefix_of_seq. split.
      + intros [[?|?]|(y & Hy & ?)]; [by left | | ].
        * right. exists x. split; [left|done].
        * right. exists y. split; [by right|done].
      + intros [?|(y & Hy & Hp)]; [by left; left|].
        apply elem_of_cons in Hy as [->|Hy]; [by left; right|].
        right. by exists y. }
  rewrite Hgen. split; [|by right]. intros [Hnil|?]; [|done]. by apply elem_of_nil in Hnil.
Qed.

Lemma words_indexed_fields doc (l : list jsstring) (t : QueryScorer) :
  let t' := foldl (word_indexed doc) t l in
  _distanceThreshold t' = _distanceThreshold t /\
  _stopWords t' = _stopWords t /\
  _stopWordPrefixes t' = _stopWordPrefixes t /\
  _documents t' = _documents t /\
  _documentsByWord t' = foldl (bucket_add doc) (_documentsByWord t) l /\
  _documentsByPrefix t' =
    foldl (fun index word => prefixes_added doc word index) (_documentsByPrefix t) l.
Proof.
  revert t. induction l as [|x l IH]; intros t; simpl; [done|].
  destruct (IH (word_indexed doc t x)) as (-> & -> & -> & -> & -> & ->). done.
Qed.

End Index.

Section HistoryFacts.
Context {locale : Locale}.

Lemma stop_fields (array : list jsstring) :
  let stops := foldl JSSet.add [] (map toLocaleLowerCase array) in
  (forall x, x ∈ stops <-> exists s, s ∈ array /\ x = toLocaleLowerCase s) /\
  (forall p, p ∈ stop_prefixes stops <->
             exists s, s ∈ array /\ is_prefix_of p (toLocaleLowerCase s)).
Proof.
  intros stops.
  assert (forall x, x ∈ stops <-> exists s, s ∈ array /\ x = toLocaleLowerCase s) as Hstops.
  { intros x. unfold stops. rewrite JSSetFacts.elem_of_add_all, list_elem_of_fmap.
    split.
    - intros [Hnil|(s & -> & Hs)]; [by apply elem_of_nil in Hnil|]. by exists s.
    - intros (s & Hs & ->). right. by exists s. }
  split; [done|]. intros p. rewrite stop_prefixes_elem. split.
  - intros (word & (s & Hs & ->)%Hstops & Hp). by exists s.
  - intros (s & Hs & Hp). exists (toLocaleLowerCase s). split; [|done].
    apply Hstops. by exists s.
Qed.

Lemma consistent_new (opts : Options) (objs : gmap ref Document)
    (arrs : gmap ref (list jsstring)) :
  consistent (default [] (opt_stopWords opts)) [] (this (new_QueryScorer opts objs arrs)).
Proof.
  unfold new_QueryScorer. rewrite constructor_run. simpl.
  destruct (stop_fields (default [] (opt_stopWords opts))) as [Hs Hp].
  split; simpl; try done.
  - apply NoDup_nil_2.
  - apply NoDup_nil_2.
  - intros k. split; [by intros ?%elem_of_nil|].
    by intros (doc & ws & x & ?%elem_of_nil & _).
  - by intros doc ws x ?%elem_of_nil.
  - apply NoDup_nil_2.
  - intros k. split; [by intros ?%elem_of_nil|].
    by intros (doc & ws & x & ?%elem_of_nil & _).
Qed.

Lemma consistent_set_stopWords (stops array : list jsstring)
    (docs : list (ref * list jsstring)) (w : World) :
  consistent stops docs (this w) ->
  consistent array docs (this (set_stopWords array w).1).
Proof.
  intros [H1 H2 Hwnd H3 H4 Hpnd H5 _ _]. rewrite set_stopWords_run. simpl.
  destruct (stop_fields array) as [Hs Hp].
  by split.
Qed.

Lemma consistent_addDocument (stops : list jsstring)
    (docs : list (ref * list jsstring)) (w : World) (doc : ref) :
  consistent stops docs (this w) ->
  consistent stops (docs ++ [(doc, default [] (words_of w doc))])
    (this (addDocument doc w).1).
Proof.
  intros [H1 H2 Hwnd H3 H4 Hpnd H5 H6 H7]. rewrite addDocument_this.
  set (ws := default [] (words_of w doc)).
  destruct (words_indexed_fields doc (map toLocaleLowerCase ws)
              (with_documents (JSSet.add (_documents (this w)) doc) (this w)))
    as (_ & Es & Ep & Ed & Ew & Epre).
  simpl in *.
  split.
  - rewrite Ed. by apply JSSetFacts.NoDup_add.
  - intros d. rewrite Ed, JSSetFacts.elem_of_add, H2, fmap_app, elem_of_app. simpl.
    by rewrite list_elem_of_singleton.
  - rewrite Ew. by apply words_added_NoDup.
  - intros k. rewrite Ew, words_added_keys, H3, list_elem_of_fmap. split.
    + intros [(d & ws0 & x & Hin & Hx & ->)|(x & -> & Hx)].
      * exists d, ws0, x. split; [|done]. apply elem_of_app. by left.
      * exists doc, ws, x. split; [|done]. apply elem_of_app. right. by left.
    + intros (d & ws0 & x & Hin & Hx & ->).
      apply elem_of_app in Hin as [Hin|Hin].
      * left. by exists d, ws0, x.
      * apply list_elem_of_singleton in Hin as [= -> ->]. right. by exists x.
  - intros d ws0 x Hin Hx. rewrite Ew.
    apply elem_of_app in Hin as [Hin|Hin].
    + apply words_added_keeps. by apply (H4 d ws0).
    + apply list_elem_of_singleton in Hin as [= -> ->].
      apply words_added_in, list_elem_of_fmap. by exists x.
  - rewrite Epre. by apply all_prefixes_added_NoDup.
  - intros k. rewrite Epre, all_prefixes_added_keys, H5. split.
    + intros [(d & ws0 & x & Hin & Hx & Hp)|(word & (x & -> & Hx)%list_elem_of_fmap & Hp)].
      * exists d, ws0, x. split; [|done]. apply elem_of_app. by left.
      * exists doc, ws, x. split; [|done]. apply elem_of_app. right. by left.
    + intros (d & ws0 & x & Hin & Hx & Hp).
      apply elem_of_app in Hin as [Hin|Hin].
      * left. by exists d, ws0, x.
      * apply list_elem_of_singleton in Hin as [= -> ->]. right.
        exists (toLocaleLowerCase x). split; [|done]. apply list_elem_of_fmap. by exists x.
  - by rewrite Es.
  - by rewrite Ep.
Qed.

(** Every world reached through the interface has a consistent scorer. *)
Lemma history_consistent (stops : list jsstring) (docs : list (ref * list jsstring))
    (w : World) :
  history stops docs w -> consistent stops docs (this w).
Proof.
  induction 1 as [opts objs arrs | stops docs w doc _ IH | stops docs w v _ IH
                  | stops docs w array _ IH | stops docs w v _ IH
                  | stops docs w objs arrs _ IH].
  - apply consistent_new.
  - by apply consistent_addDocument.
  - by rewrite score_world.
  - by apply (consistent_set_stopWords stops).
  - rewrite set_distanceThreshold_run. by destruct IH.
  - done.
Qed.

End HistoryFacts.

(** ** Numbers and sorting *)

Lemma Math_min_Infinity (x : number) : Math_min PInf x = x.
Proof. by destruct x. Qed.

Lemma is_score_min (a b : number) : is_score a -> is_score b -> is_score (Math_min a b).
Proof.
  destruct a as [x| | |], b as [y| | |]; simpl; try done.
  destruct (Z.ltb_spec y x); simpl; lia.
Qed.

Lemma is_score_add (a b : number) : is_score a -> is_score b -> is_score (js_add a b).
Proof. destruct a as [x| | |], b as [y| | |]; simpl; try done. lia. Qed.

Lemma is_score_or_zero (v : option number) :
  (forall n, v = Some n -> is_score n) -> is_score (or_zero v).
Proof.
  intros Hv. destruct v as [n|]; simpl; [|done].
  specialize (Hv n eq_refl). destruct n as [[| |]| | |]; simpl in *; done.
Qed.

Lemma Math_min_zero (d : number) : is_score d -> Math_min d (Fin 0) = Fin 0.
Proof.
  destruct d as [x| | |]; simpl; try done.
  intros Hx. destruct (Z.ltb_spec 0 x); [done|]. f_equal. lia.
Qed.

Lemma Math_min_zero_l (d : number) : is_score d -> Math_min (Fin 0) d = Fin 0.
Proof.
  destruct d as [x| | |]; simpl; try done.
  intros Hx. destruct (Z.ltb_spec x 0); [lia|done].
Qed.

Lemma score_le_trans (a b c : number) : score_le a b -> score_le b c -> score_le a c.
Proof. destruct a, b, c; simpl; try done. lia. Qed.

(** What the sort makes of the comparison function of [score]. *)
Lemma by_score_gt (a b : Result.t) :
  is_score (Result.score a) -> is_score (Result.score b) ->
  if js_gt (SortCompare by_score a b) (Fin 0)
  then score_le (Result.score b) (Result.score a)
  else score_le (Result.score a) (Result.score b).
Proof.
  unfold SortCompare, by_score, js_sub.
  destruct (Result.score a) as [x| | |], (Result.score b) as [y| | |]; simpl; try done.
  intros Hx Hy. destruct (Z.ltb_spec 0 (x + - y)); simpl; lia.
Qed.

Lemma sort_insert_Permutation {A} (comparefn : A -> A -> number) (x : A) (l : list A) :
  sort_insert comparefn x l ≡ₚ x :: l.
Proof.
  induction l as [|y l IH]; cbn [sort_insert]; [done|].
  destruct (js_gt (SortCompare comparefn x y) (Fin 0)); [|reflexivity].
  rewrite IH. apply Permutation_swap.
Qed.

Lemma Array_sort_Permutation {A} (comparefn : A -> A -> number) (l : list A) :
  Array_sort comparefn l ≡ₚ l.
Proof.
  induction l as [|x l IH]; simpl; [reflexivity|].
  unfold Array_sort in *. by rewrite sort_insert_Permutation, IH.
Qed.

Lemma sort_insert_Sorted (x : Result.t) (l : list Result.t) :
  is_score (Result.score x) -> Forall (fun r => is_score (Result.score r)) l ->
  Sorted ascending l -> Sorted ascending (sort_insert by_score x l).
Proof.
  intros Hx Hl Hs. induction l as [|y l IH]; cbn [sort_insert].
  - by repeat constructor.
  - apply Forall_cons in Hl as [Hy Hl].
    pose proof (by_score_gt x y Hx Hy) as Hcmp.
    inversion Hs as [|? ? Hs' Hhd]; subst.
    destruct (js_gt (SortCompare by_score x y) (Fin 0)).
    + constructor; [by apply IH|].
      destruct l as [|z l]; cbn [sort_insert].
      * by constructor.
      * destruct (js_gt (SortCompare by_score x z) (Fin 0)); constructor;
          [by inversion Hhd|done].
    + by repeat constructor.
Qed.

Lemma Array_sort_Sorted (l : list Result.t) :
  Forall (fun r => is_score (Result.score r)) l ->
  StronglySorted ascending (Array_sort by_score l).
Proof.
  intros Hl. apply Sorted_StronglySorted.
  { intros a b c. apply score_le_trans. }
  induction l as [|x l IH]; simpl; [constructor|].
  apply Forall_cons in Hl as [Hx Hl].
  apply sort_insert_Sorted; [done | | by apply IH].
  fold (Array_sort by_score l). by rewrite Array_sort_Permutation.
Qed.

(** ** The running minima and sums *)

Section Scores.
Implicit Types (m s : list (ref * number)) (doc : ref) (d : number) (t : QueryScorer).

Lemma set_Forall {K V} `{EqDecision K} (P : K * V -> Prop) (m : list (K * V)) (k : K) (v : V) :
  Forall P m -> P (k, v) -> Forall P (JSMap.set m k v).
Proof.
  intros Hm Hkv. induction m as [|[k0 v0] m IH]; simpl.
  - by constructor.
  - apply Forall_cons in Hm as [H0 Hm].
    destruct (decide (k = k0)); constructor; auto.
Qed.

Lemma scores_get m doc d : scores m -> JSMap.get m doc = Some d -> is_score d.
Proof.
  intros Hm Hget%JSMapFacts.get_Some_elem_of.
  unfold scores in Hm. rewrite Forall_forall in Hm. by apply (Hm (doc, d)).
Qed.

Lemma or_Infinity_score m doc : scores m -> is_score (or_Infinity m doc).
Proof.
  intros Hm. unfold or_Infinity.
  destruct (JSMap.get m doc) as [d|] eqn:Hget; [|done]. by apply (scores_get m doc).
Qed.

Lemma clamped_score t (searchWord docWord : jsstring) :
  is_score (clamped t searchWord docWord).
Proof.
  unfold clamped. cbv zeta. destruct (js_gt _ _); [done|].
  simpl. by apply LevenshteinFacts.levenshtein_nonneg.
Qed.

Lemma record_min_scores d m doc : is_score d -> scores m -> scores (record_min d m doc).
Proof.
  intros Hd Hm. apply set_Forall; [done|]. simpl.
  apply is_score_min; [done|]. by apply or_Infinity_score.
Qed.

Lemma record_min_NoDup d m doc :
  NoDup (JSMap.keys m) -> NoDup (JSMap.keys (record_min d m doc)).
Proof. apply JSMapFacts.NoDup_keys_set. Qed.

Lemma record_mins_scores d m (docs : list ref) :
  is_score d -> scores m -> scores (foldl (record_min d) m docs).
Proof.
  intros Hd. revert m. induction docs as [|doc docs IH]; intros m Hm; simpl; [done|].
  by apply IH, record_min_scores.
Qed.

Lemma record_mins_NoDup d m (docs : list ref) :
  NoDup (JSMap.keys m) -> NoDup (JSMap.keys (foldl (record_min d) m docs)).
Proof.
  revert m. induction docs as [|doc docs IH]; intros m Hm; simpl; [done|].
  by apply IH, record_min_NoDup.
Qed.

Lemma minima_scores t (i : nat) (searchWord : jsstring) :
  scores (minima t i searchWord) /\ NoDup (JSMap.keys (minima t i searchWord)).
Proof.
  unfold minima.
  assert (forall l m, scores m -> NoDup (JSMap.keys m) ->
            scores (foldl (key_step t searchWord) m l) /\
            NoDup (JSMap.keys (foldl (key_step t searchWord) m l))) as Hgen.
  { induction l as [|[k docs] l IH]; intros m Hm Hnd; simpl; [done|].
    apply IH.
    - apply record_mins_scores; [apply clamped_score|done].
    - by apply record_mins_NoDup. }
  apply Hgen; [constructor|apply NoDup_nil_2].
Qed.

Lemma Math_min_idem d (x : number) : Math_min d (Math_min d x) = Math_min d x.
Proof.
  destruct d as [a| | |], x as [b| | |]; simpl; rewrite ?Z.ltb_irrefl; try done.
  destruct (b <? a) eqn:E; simpl; [by rewrite E | by rewrite Z.ltb_irrefl].
Qed.

Lemma record_min_get d m doc0 doc :
  or_Infinity (record_min d m doc0) doc =
  if decide (doc0 = doc) then Math_min d (or_Infinity m doc) else or_Infinity m doc.
Proof.
  unfold record_min. fold (or_Infinity m doc0). unfold or_Infinity at 1.
  destruct (decide (doc0 = doc)) as [->|Hne].
  - by rewrite JSMapFacts.get_set_eq.
  - by rewrite JSMapFacts.get_set_ne.
Qed.

(** The value read back after the documents of one key have been processed. *)
Lemma record_mins_get d m (docs : list ref) doc :
  or_Infinity (foldl (record_min d) m docs) doc =
  if bool_decide (doc ∈ docs) then Math_min d (or_Infinity m doc)
  else or_Infinity m doc.
Proof.
  revert m. induction docs as [|doc0 docs IH]; intros m; simpl; [done|].
  rewrite IH, record_min_get.
  destruct (decide (doc0 = doc)) as [->|Hne].
  - rewrite (bool_decide_eq_true_2 (doc ∈ doc :: docs)) by left.
    case_bool_decide; [apply Math_min_idem|done].
  - case_bool_decide as Hin.
    + by rewrite bool_decide_eq_true_2 by (by right).
    + rewrite bool_decide_eq_false_2; [done|].
      intros [->|?]%elem_of_cons; done.
Qed.

Lemma or_Infinity_zero m doc : or_Infinity m doc = Fin 0 -> JSMap.get m doc = Some (Fin 0).
Proof. unfold or_Infinity. destruct (JSMap.get m doc); [by intros ->|done]. Qed.

(** A key at clamped distance 0 whose set holds [doc] makes the minimum of
    [doc] for the word 0. *)
Lemma minima_zero t (i : nat) (searchWord key : jsstring) (docs : list ref) doc :
  (key, docs) ∈ selected t i -> doc ∈ docs -> clamped t searchWord key = Fin 0 ->
  JSMap.get (minima t i searchWord) doc = Some (Fin 0).
Proof.
  intros Hin Hdoc Hzero. apply or_Infinity_zero. unfold minima.
  assert (forall l m, scores m ->
            or_Infinity m doc = Fin 0 \/ (key, docs) ∈ l ->
            or_Infinity (foldl (key_step t searchWord) m l) doc = Fin 0) as Hgen.
  { induction l as [|[k0 docs0] l IH]; intros m Hm Hcase; simpl.
    - destruct Hcase as [?|Hnil]; [done|]. by apply elem_of_nil in Hnil.
    - apply IH.
      { apply record_mins_scores; [apply clamped_score|done]. }
      unfold key_step at 1. simpl. rewrite record_mins_get.
      destruct Hcase as [Hz|[[= <- <-]|Htl]%elem_of_cons].
      + left. rewrite Hz. case_bool_decide; [|done].
        apply Math_min_zero, clamped_score.
      + left. rewrite bool_decide_eq_true_2 by done. rewrite Hzero.
        by apply Math_min_zero_l, or_Infinity_score.
      + by right. }
  apply Hgen; [constructor|by right].
Qed.

(** The sums after the minima of one word have been added. *)
Lemma add_mins_get m s doc :
  NoDup (JSMap.keys m) ->
  JSMap.get (foldl add_min s m) doc =
  match JSMap.get m doc with
  | Some min => Some (js_add min (or_zero (JSMap.get s doc)))
  | None => JSMap.get s doc
  end.
Proof.
  revert s. induction m as [|[k v] m IH]; intros s Hnd; simpl; [done|].
  apply NoDup_cons in Hnd as [Hk Hnd]. simpl in Hk. rewrite IH by done.
  destruct (decide (doc = k)) as [->|Hne].
  - apply JSMapFacts.get_None in Hk. rewrite Hk. apply JSMapFacts.get_set_eq.
  - by rewrite JSMapFacts.get_set_ne by done.
Qed.

Lemma add_mins_scores m s : scores m -> scores s -> scores (foldl add_min s m).
Proof.
  revert s. induction m as [|[k v] m IH]; intros s Hm Hs; simpl; [done|].
  apply Forall_cons in Hm as [Hv Hm]. apply IH; [done|].
  apply set_Forall; [done|]. simpl. apply is_score_add; [done|].
  apply is_score_or_zero. intros n Hn. by apply (scores_get s k).
Qed.

Lemma sums_scores t (searchWords : list jsstring) : scores (sums t searchWords).
Proof.
  unfold sums. generalize (seq 0 (length searchWords)) as l.
  assert (forall l s, scores s -> scores (foldl (word_step t searchWords) s l)) as Hgen.
  { induction l as [|i l IH]; intros s Hs; simpl; [done|].
    apply IH. unfold word_step. destruct (skipped _ _ _); [done|].
    apply add_mins_scores; [apply minima_scores|done]. }
  intros l. apply Hgen. constructor.
Qed.

Lemma sums_all_skipped t (searchWords : list jsstring) :
  (forall i, (i < length searchWords)%nat -> skipped t i (searchWords !!! i) = true) ->
  sums t searchWords = [].
Proof.
  intros Hall. unfold sums.
  assert (forall l s, (forall i, i ∈ l -> (i < length searchWords)%nat) ->
            foldl (word_step t searchWords) s l = s) as Hgen.
  { induction l as [|i l IH]; intros s Hl; simpl; [done|].
    unfold word_step at 2. rewrite Hall by (apply Hl; left).
    apply IH. intros j Hj. apply Hl. by right. }
  apply Hgen. intros i Hi. apply elem_of_seq in Hi. lia.
Qed.

Lemma make_result_score s doc : scores s -> is_score (Result.score (make_result s doc)).
Proof.
  intros Hs. unfold make_result. simpl.
  destruct (JSMap.get s doc) as [d|] eqn:Hget; [|done]. by apply (scores_get s doc).
Qed.

End Scores.

(** * The claims *)

(** ** The edit distance: C7, C8 *)

(** C7.  The edit-distance routine returns 0 on two identical strings; when
    one argument is the empty string it returns the length of the other
    times the cost of an insertion (empty first argument) or of a deletion
    (empty second argument), which with the default unit costs is the
    length itself. *)
Theorem levenshtein_identical_and_empty (costIns costRep costDel : Z) (s : jsstring) :
  Levenshtein._levenshtein costIns costRep costDel s s = 0 /\
  Levenshtein._levenshtein costIns costRep costDel [] s = Z.of_nat (length s) * costIns /\
  Levenshtein._levenshtein costIns costRep costDel s [] = Z.of_nat (length s) * costDel /\
  Levenshtein._levenshtein 1 1 1 [] s = Z.of_nat (length s) /\
  Levenshtein._levenshtein 1 1 1 s [] = Z.of_nat (length s).
Proof.
  split_and!.
  - apply LevenshteinFacts.levenshtein_same.
  - apply LevenshteinFacts.levenshtein_empty.
  - apply LevenshteinFacts.levenshtein_empty.
  - destruct (LevenshteinFacts.levenshtein_empty 1 1 1 s) as [-> _]. lia.
  - destruct (LevenshteinFacts.levenshtein_empty 1 1 1 s) as [_ ->]. lia.
Qed.

(** C8.  With the default unit costs the edit distance is symmetric:
    [distance(a, b) = distance(b, a)] for all strings. *)
Theorem levenshtein_symmetric (a b : jsstring) :
  Levenshtein._levenshtein 1 1 1 a b = Levenshtein._levenshtein 1 1 1 b a.
Proof.
  destruct (decide (a = b)) as [->|Hne]; [done|].
  destruct (LevenshteinFacts.levenshtein_empty 1 1 1 a) as [Ha1 Ha2].
  destruct (LevenshteinFacts.levenshtein_empty 1 1 1 b) as [Hb1 Hb2].
  destruct (decide (a = [])) as [->|Ha]; [by rewrite Hb1, Hb2|].
  destruct (decide (b = [])) as [->|Hb]; [by rewrite Ha1, Ha2|].
  rewrite !LevenshteinFacts.levenshtein_table by done.
  apply LevenshteinFacts.dist_swap.
Qed.

(** ** Scoring: C1 - C6, C9, C10 *)

Lemma StronglySorted_lookup {A} (R : A -> A -> Prop) (l : list A) (i j : nat) (a b : A) :
  StronglySorted R l -> (i < j)%nat -> l !! i = Some a -> l !! j = Some b -> R a b.
Proof.
  intros Hs. revert i j. induction Hs as [|x l Hs IH Hall]; intros i j Hij Hi Hj.
  - done.
  - destruct j as [|j]; [lia|]. destruct i as [|i]; simpl in *.
    + injection Hi as ->. rewrite Forall_forall in Hall.
      apply Hall. by eapply list_elem_of_lookup_2.
    + apply (IH i j); [lia|done..].
Qed.

Lemma dropWhiteSpace_word (s : jsstring) :
  Forall (fun c => isWhiteSpace c = false) s -> dropWhiteSpace s = s.
Proof. intros Hs. destruct Hs as [|c s Hc Hs]; simpl; [done|]. by rewrite Hc. Qed.

Lemma trim_word (s : jsstring) :
  Forall (fun c => isWhiteSpace c = false) s -> trim s = s.
Proof.
  intros Hs. unfold trim. rewrite (dropWhiteSpace_word s) by done.
  rewrite dropWhiteSpace_word.
  - apply rev_involutive.
  - rewrite Forall_forall in *. intros c Hc. apply Hs.
    apply list_elem_of_In. apply in_rev. by apply list_elem_of_In.
Qed.

Lemma split_word (s : jsstring) :
  Forall (fun c => isWhiteSpace c = false) s -> split_whitespace s = [s].
Proof.
  unfold split_whitespace.
  assert (forall cur inrun, Forall (fun c => isWhiteSpace c = false) s ->
            split_go cur inrun s = [rev cur ++ s]) as Hgen.
  { induction s as [|c s IH]; intros cur inrun Hs; simpl.
    - by rewrite app_nil_r.
    - apply Forall_cons in Hs as [Hc Hs]. rewrite Hc, IH by done.
      simpl. by rewrite <- app_assoc. }
  intros Hs. by rewrite Hgen.
Qed.

Section Claims.
Context {locale : Locale}.

Lemma ranking_documents (t : QueryScorer) (q : jsstring) :
  map Result.document (ranking t q) ≡ₚ _documents t.
Proof.
  unfold ranking.
  etransitivity; [apply Permutation_map, Array_sort_Permutation|].
  rewrite map_map. simpl. by rewrite map_id.
Qed.

Lemma ranking_elem_of (t : QueryScorer) (q : jsstring) (r : Result.t) :
  r ∈ ranking t q <->
  exists doc, doc ∈ _documents t /\ r = make_result (sums t (query_words q)) doc.
Proof.
  unfold ranking. rewrite Array_sort_Permutation, list_elem_of_fmap.
  split; intros (doc & ? & ?); by exists doc.
Qed.

Lemma ranking_scores (t : QueryScorer) (q : jsstring) :
  Forall (fun r => is_score (Result.score r)) (ranking t q).
Proof.
  apply Forall_forall. intros r (doc & _ & ->)%ranking_elem_of.
  apply make_result_score, sums_scores.
Qed.

Lemma ranking_Sorted (t : QueryScorer) (q : jsstring) :
  StronglySorted ascending (ranking t q).
Proof.
  apply Array_sort_Sorted. apply Forall_forall.
  intros r (doc & -> & _)%list_elem_of_fmap.
  apply make_result_score, sums_scores.
Qed.

(** C9.  [score] changes nothing in the world (corpus, configuration,
    index, documents), and it is deterministic: a second call with the same
    argument returns what the first returned, and the value depends on the
    scorer and the argument alone. *)
Theorem score_pure (v : value) (w : World) :
  (score v w).1 = w /\
  score v (score v w).1 = score v w /\
  (forall w', this w' = this w -> (score v w').2 = (score v w).2).
Proof.
  split_and!.
  - apply score_world.
  - by rewrite score_world.
  - intros w' Hthis. destruct v; try done. by rewrite !score_run, Hthis.
Qed.

(** C10.  [addDocument(doc)] mutates the caller's document: on return the
    [words] field of [doc] refers to a new array, which holds the
    lower-cased words; the array the caller passed is left as it was. *)
Theorem addDocument_replaces_words (doc : ref) (d : Document) (ws : list jsstring)
    (w : World) :
  objects w !! doc = Some d ->
  arrays w !! doc_words d = Some ws ->
  exists w' a,
    addDocument doc w = (w', Normal tt) /\
    objects w' !! doc = Some {| doc_id := doc_id d; doc_words := a |} /\
    a <> doc_words d /\
    arrays w !! a = None /\
    arrays w' !! a = Some (map toLocaleLowerCase ws) /\
    arrays w' !! doc_words d = Some ws /\
    words_of w' doc = Some (map toLocaleLowerCase ws).
Proof.
  intros Hd Hws. eexists _, (fresh (dom (arrays w))).
  assert (arrays w !! fresh (dom (arrays w)) = None) as Hfresh.
  { apply not_elem_of_dom, is_fresh. }
  assert (fresh (dom (arrays w)) <> doc_words d) as Hne.
  { intros Heq. rewrite Heq in Hfresh. congruence. }
  split; [by apply (addDocument_run doc d ws)|]. simpl.
  split_and!; try done.
  - by rewrite lookup_insert_eq.
  - by rewrite lookup_insert_eq.
  - by rewrite lookup_insert_ne.
  - unfold words_of. simpl. rewrite lookup_insert_eq. simpl. by rewrite lookup_insert_eq.
Qed.

(** C1.  For every corpus and every query string, [score] returns an array
    with exactly one entry per document added with [addDocument] (none
    dropped, none twice), in ascending order of score; a document for which
    [sumByDoc] holds no sum has the score [Infinity], as every document has
    when all the words of the query are skipped, and the entries with the
    score [Infinity] come after every entry with a finite score. *)
Theorem score_one_entry_per_document (stops : list jsstring)
    (docs : list (ref * list jsstring)) (w : World) (searchString : jsstring) :
  history stops docs w ->
  exists results sumByDoc,
    score (VString searchString) w = (w, Normal results) /\
    for_of (seq 0 (length (query_words searchString)))
           (word_body (query_words searchString)) [] w = (w, Normal sumByDoc) /\
    NoDup (map Result.document results) /\
    (forall doc, doc ∈ map Result.document results <-> doc ∈ docs.*1) /\
    StronglySorted ascending results /\
    (forall r, r ∈ results -> is_score (Result.score r)) /\
    (forall r, r ∈ results -> JSMap.get sumByDoc (Result.document r) = None ->
               Result.score r = PInf) /\
    ((forall i, (i < length (query_words searchString))%nat ->
                skip_word i (query_words searchString !!! i) w = (w, Normal true)) ->
     forall r, r ∈ results -> Result.score r = PInf) /\
    (forall i j ri rj,
       results !! i = Some ri -> results !! j = Some rj ->
       Result.score ri = PInf -> (exists z, Result.score rj = Fin z) -> (j < i)%nat).
Proof.
  intros Hhist. apply history_consistent in Hhist as [Hnd Hdocs _ _ _ _ _ _ _].
  exists (ranking (this w) searchString), (sums (this w) (query_words searchString)).
  split; [apply score_run|]. split; [apply sums_run|].
  pose proof (ranking_documents (this w) searchString) as Hperm.
  pose proof (ranking_Sorted (this w) searchString) as Hsorted.
  split_and!.
  - by rewrite Hperm.
  - intros doc. by rewrite Hperm.
  - done.
  - intros r Hr. pose proof (ranking_scores (this w) searchString) as Hall.
    rewrite Forall_forall in Hall. by apply Hall.
  - intros r (doc & _ & ->)%ranking_elem_of. simpl. by intros ->.
  - intros Hskip r (doc & _ & ->)%ranking_elem_of.
    rewrite sums_all_skipped; [done|].
    intros i Hi. specialize (Hskip i Hi). rewrite skip_word_run in Hskip. congruence.
  - intros i j ri rj Hi Hj Hinf [z Hz].
    destruct (decide (j < i)%nat) as [|Hge]; [done|]. exfalso.
    destruct (decide (i = j)) as [->|Hne]; [congruence|].
    assert (ascending ri rj) as Hle.
    { apply (StronglySorted_lookup ascending _ i j ri rj Hsorted); [lia|done..]. }
    unfold ascending in Hle. by rewrite Hinf, Hz in Hle.
Qed.



(** C4.  A key whose edit distance to the search word is greater than the
    threshold counts as [Infinity]: processing it leaves the minimum of every
    document, [Infinity] when it has none, as it was.  No document is
    removed from the result on that account: every document of the corpus
    is in the array that [score] returns. *)
Theorem key_above_threshold (w : World) (searchWord docWord : jsstring)
    (docs : list ref) (minDistanceByDoc : list (ref * number)) :
  js_gt (Fin (Levenshtein._levenshtein 1 1 1 searchWord docWord))
        (_distanceThreshold (this w)) = true ->
  key_distance searchWord docWord w = (w, Normal PInf) /\
  (exists minDistanceByDoc',
     key_body searchWord minDistanceByDoc (docWord, docs) w =
       (w, Normal minDistanceByDoc') /\
     forall doc, or_Infinity minDistanceByDoc' doc = or_Infinity minDistanceByDoc doc) /\
  (forall searchString, exists results,
     score (VString searchString) w = (w, Normal results) /\
     forall doc, doc ∈ _documents (this w) -> doc ∈ map Result.document results).
Proof.
  intros Hgt.
  assert (clamped (this w) searchWord docWord = PInf) as Hclamp.
  { unfold clamped. cbv zeta. by rewrite Hgt. }
  split_and!.
  - by rewrite key_distance_run, Hclamp.
  - eexists. split; [apply key_body_run|].
    intros doc. unfold key_step. simpl. rewrite Hclamp, record_mins_get.
    case_bool_decide; [apply Math_min_Infinity|done].
  - intros searchString. eexists. split; [apply score_run|].
    intros doc Hdoc. by rewrite ranking_documents.
Qed.

(** The words of a query without white space: the query itself,
    lower-cased. *)
Lemma query_words_word (q : jsstring) :
  Forall (fun c => isWhiteSpace c = false) q -> query_words q = [toLocaleLowerCase q].
Proof. intros Hq. unfold query_words. by rewrite trim_word, split_word. Qed.

(** C5, as the code has it.  Let [doc] have been added with the word [x],
    and let the query be a single word (it contains no white space) that
    lower-cases to the normalized [x], as [x] itself does, that is not a stop
    word, and let the threshold not be negative.  Then [score] yields [doc]
    with the score 0; [doc] is first when every other document has another
    score, and alone when it is the sole document. *)
Theorem keyword_query_scores_zero (stops : list jsstring)
    (docs : list (ref * list jsstring)) (w : World) (doc : ref)
    (ws : list jsstring) (x q : jsstring) :
  history stops docs w ->
  (doc, ws) ∈ docs -> x ∈ ws ->
  toLocaleLowerCase q = toLocaleLowerCase x ->
  Forall (fun c => isWhiteSpace c = false) q ->
  (forall s, s ∈ stops -> toLocaleLowerCase s <> toLocaleLowerCase q) ->
  js_gt (Fin 0) (_distanceThreshold (this w)) = false ->
  exists results,
    score (VString q) w = (w, Normal results) /\
    {| Result.document := doc; Result.score := Fin 0 |} ∈ results /\
    ((forall r, r ∈ results -> Result.document r <> doc -> Result.score r <> Fin 0) ->
     results !! 0%nat = Some {| Result.document := doc; Result.score := Fin 0 |}) /\
    ((forall d, d ∈ docs.*1 -> d = doc) ->
     results = [{| Result.document := doc; Result.score := Fin 0 |}]).
Proof.
  intros Hhist Hdoc Hx Hq Hword Hstop Hthreshold.
  apply history_consistent in Hhist as [Hnd Hdocs _ _ Hbucket _ _ Hstops _].
  exists (ranking (this w) q). split; [apply score_run|].
  set (lq := toLocaleLowerCase q).
  assert (JSMap.get (sums (this w) (query_words q)) doc = Some (Fin 0)) as Hsum.
  { rewrite query_words_word by done. fold lq. unfold sums. simpl.
    unfold word_step. change ([lq] !!! 0%nat) with lq.
    assert (skipped (this w) 0 lq = false) as ->.
    { unfold skipped. simpl. rewrite orb_false_r.
      apply not_true_is_false. rewrite JSSetFacts.has_true, Hstops.
      intros (s & Hs & Heq). by apply (Hstop s). }
    destruct (minima_scores (this w) 0 lq) as [_ Hkeys].
    rewrite add_mins_get by done.
    destruct (Hbucket doc ws x Hdoc Hx) as (bucket & Hget & Hin).
    rewrite (minima_zero (this w) 0 lq lq bucket doc); [done| |done|].
    - unfold selected. simpl. apply JSMapFacts.get_Some_elem_of.
      unfold lq. by rewrite Hq.
    - unfold clamped. cbv zeta.
      rewrite LevenshteinFacts.levenshtein_same. by rewrite Hthreshold. }
  assert (make_result (sums (this w) (query_words q)) doc =
          {| Result.document := doc; Result.score := Fin 0 |}) as Hres.
  { unfold make_result. by rewrite Hsum. }
  assert ({| Result.document := doc; Result.score := Fin 0 |} ∈ ranking (this w) q) as Hin.
  { apply ranking_elem_of. exists doc. split; [|done].
    apply Hdocs, list_elem_of_fmap. by exists (doc, ws). }
  assert ((forall r, r ∈ ranking (this w) q -> Result.document r <> doc ->
                     Result.score r <> Fin 0) ->
          ranking (this w) q !! 0%nat =
            Some {| Result.document := doc; Result.score := Fin 0 |}) as Hfirst.
  { intros Hothers.
    pose proof (ranking_Sorted (this w) q) as Hsorted.
    pose proof (ranking_scores (this w) q) as Hscores.
    destruct (ranking (this w) q) as [|r0 rest] eqn:Hrank.
    { by apply elem_of_nil in Hin. }
    simpl. f_equal.
    assert (Result.score r0 = Fin 0) as Hzero.
    { apply Forall_cons in Hscores as [Hs0 _].
      apply elem_of_cons in Hin as [<-|Hin]; [done|].
      apply StronglySorted_inv in Hsorted as [_ Hall].
      rewrite Forall_forall in Hall. specialize (Hall _ Hin).
      unfold ascending in Hall. simpl in Hall.
      destruct (Result.score r0) as [z| | |]; simpl in *; try done.
      f_equal. lia. }
    destruct (decide (Result.document r0 = doc)) as [Hd|Hd].
    - destruct r0 as [d0 s0]. simpl in *. by subst.
    - exfalso. apply (Hothers r0); [by left|done..]. }
  split_and!; [done|done|].
  intros Hsole.
  pose proof (ranking_documents (this w) q) as Hperm.
  assert (_documents (this w) = [doc]) as Hone.
  { assert (doc ∈ _documents (this w)) as Hmem.
    { apply Hdocs, list_elem_of_fmap. by exists (doc, ws). }
    destruct (_documents (this w)) as [|d0 [|d1 l]] eqn:Hl.
    - by apply elem_of_nil in Hmem.
    - apply list_elem_of_singleton in Hmem. by subst.
    - exfalso. apply NoDup_cons in Hnd as [Hnot _]. apply Hnot.
      rewrite (Hsole d0), (Hsole d1); [by left| |].
      + apply Hdocs. right. by left.
      + apply Hdocs. by left. }
  unfold ranking. rewrite Hone. simpl. by rewrite Hres.
Qed.

(** C6, as the code has it.  [score] returns on every string, in every
    world, and [addDocument] on every document that has an array of words:
    an empty corpus, an empty query, words that match nothing and documents
    with the same id are no errors.  The ranking is empty for an empty
    corpus, and its scores are non-negative integers or [Infinity].  No
    argument is validated: on an argument that is not a string, [null]
    included, [score] raises the host's [TypeError] at [searchString.trim()],
    leaving the world as it is; no method ever raises [InvalidArgument]. *)
Theorem score_failure_semantics (w : World) :
  (forall q, exists results,
     score (VString q) w = (w, Normal results) /\
     (forall r, r ∈ results -> is_score (Result.score r)) /\
     (_documents (this w) = [] -> results = [])) /\
  (forall doc ws, words_of w doc = Some ws -> (addDocument doc w).2 = Normal tt) /\
  score VUndefined w = (w, Throw TypeError) /\
  score VNull w = (w, Throw TypeError) /\
  (forall b, score (VBoolean b) w = (w, Throw TypeError)) /\
  (forall n, score (VNumber n) w = (w, Throw TypeError)) /\
  (forall r, score (VObject r) w = (w, Throw TypeError)) /\
  (forall v, (score v w).2 <> Throw InvalidArgument) /\
  (forall doc, (addDocument doc w).2 <> Throw InvalidArgument).
Proof.
  split_and!; try done.
  - intros q. exists (ranking (this w) q). split; [apply score_run|]. split.
    + intros r Hr. pose proof (ranking_scores (this w) q) as Hall.
      rewrite Forall_forall in Hall. by apply Hall.
    + intros Hempty. unfold ranking. by rewrite Hempty.
  - intros doc ws (d & Hd & Hws)%words_of_Some.
    by rewrite (addDocument_run doc d ws).
  - intros v. destruct v; try done. by rewrite score_run.
  - intros doc. destruct (words_of w doc) as [ws|] eqn:Hws.
    + apply words_of_Some in Hws as (d & Hd & Hws).
      by rewrite (addDocument_run doc d ws).
    + by rewrite addDocument_raise.
Qed.

End Claims.

(** ** The scorer of the browser test *)

Lemma test_history : @history ascii_locale [js "stop"] test_docs test_world.
Proof.
  pose proof (@history_new ascii_locale test_options test_objects test_arrays) as H0.
  pose proof (@history_addDocument ascii_locale _ _ _ 0%nat H0) as H1.
  pose proof (@history_addDocument ascii_locale _ _ _ 1%nat H1) as H2.
  pose proof (@history_addDocument ascii_locale _ _ _ 2%nat H2) as H3.
  exact H3.
Qed.

Lemma stop_history :
  @history ascii_locale [js "stop"] [(0%nat, map js ["stop"; "new york"]%string)] stop_world.
Proof.
  pose proof (@history_new ascii_locale test_options
    (<[0%nat := {| doc_id := js "signs"; doc_words := 0%nat |}]> ∅)
    (<[0%nat := map js ["stop"; "new york"]%string]> ∅)) as H0.
  exact (@history_addDocument ascii_locale _ _ _ 0%nat H0).
Qed.

(** The queries of [browser_QueryScorer.js] and the documents they are
    expected to match, in order. *)
Example browser_test :
  map test_matches
    ["banana"; "banan"; "bana"; "banna"; "banana apple"; "banana appl";
     "banana app"; "banana ap"; "banana a"; "banana aple"; "banana apl";
     "banana al"; "banana all"; "vanilla"; "vanill"; "vanil"; "vanila";
     "vanilla butterscotch"; "vanilla butterscotc"; "vanilla butterscot";
     "vanilla buttersco"; "vanilla butersco"; "vanilla buersco"; "aardvark";
     "aardvar"; "aardva"; "ardvark"; "aardvark hamster"; "aardvark hamste";
     "aardvark hamst"; "aardvark hams"; "aardvark has"; "aardvark hass";
     "aardvark hasss"; "banana aardvark"; "banana stop"; "banana sto";
     "banana st"; "banana s"; "banana stop apple"; "stop b"; "stop ban";
     "stop bana"; "stop banana"]%string =
  map Some
    [[0]; [0]; []; [0]; [0]; [0];
     [0]; [0]; [0]; [0]; [0];
     [0]; []; [1]; [1]; []; [1];
     [1]; [1]; [1];
     [1]; [1]; []; [2];
     [2]; []; [2]; [2]; [2];
     [2]; [2]; [2]; [2];
     []; []; [0]; [0];
     [0]; [0]; [0]; [0; 1; 2]; [0; 1; 2];
     [0]; [0]]%nat.
Proof. vm_compute. reflexivity. Qed.

(** ** The claims at the scorer of the browser test *)

Lemma score_one_entry_per_document_witness :
  @history ascii_locale [js "stop"] test_docs test_world /\
  exists results sumByDoc,
    @score ascii_locale (VString (js "banana aardvark")) test_world =
      (test_world, Normal results) /\
    for_of (seq 0 (length (@query_words ascii_locale (js "banana aardvark"))))
           (word_body (@query_words ascii_locale (js "banana aardvark")))
           [] test_world = (test_world, Normal sumByDoc) /\
    NoDup (map Result.document results) /\
    (forall doc, doc ∈ map Result.document results <-> doc ∈ test_docs.*1) /\
    StronglySorted ascending results /\
    (forall r, r ∈ results -> is_score (Result.score r)) /\
    (forall r, r ∈ results -> JSMap.get sumByDoc (Result.document r) = None ->
               Result.score r = PInf) /\
    ((forall i, (i < length (@query_words ascii_locale (js "banana aardvark")))%nat ->
                skip_word i (@query_words ascii_locale (js "banana aardvark") !!! i)
                  test_world = (test_world, Normal true)) ->
     forall r, r ∈ results -> Result.score r = PInf) /\
    (forall i j ri rj,
       results !! i = Some ri -> results !! j = Some rj ->
       Result.score ri = PInf -> (exists z, Result.score rj = Fin z) -> (j < i)%nat).
Proof.
  split; [exact test_history|].
  apply (@score_one_entry_per_document ascii_locale [js "stop"] test_docs test_world).
  exact test_history.
Defined.



Lemma key_above_threshold_witness :
  js_gt (Fin (Levenshtein._levenshtein 1 1 1 (js "bana") (js "banana")))
        (_distanceThreshold (this test_world)) = true /\
  key_distance (js "bana") (js "banana") test_world =
    (test_world, Normal PInf).
Proof.
  assert (js_gt (Fin (Levenshtein._levenshtein 1 1 1 (js "bana") (js "banana")))
                (_distanceThreshold (this test_world)) = true) as Hgt.
  { vm_compute. reflexivity. }
  split; [exact Hgt|].
  exact (proj1 (@key_above_threshold ascii_locale test_world (js "bana") (js "banana")
                  [0%nat] [] Hgt)).
Defined.

Lemma keyword_query_scores_zero_witness :
  exists results,
    @score ascii_locale (VString (js "BANANA")) test_world = (test_world, Normal results) /\
    {| Result.document := 0%nat; Result.score := Fin 0 |} ∈ results.
Proof.
  destruct (@keyword_query_scores_zero ascii_locale [js "stop"] test_docs test_world 0%nat
              (map js ["apple"; "pear"; "banana"; "orange"; "pomegranate"]%string)
              (js "banana") (js "BANANA")) as (results & Hscore & Hin & _).
  - exact test_history.
  - left.
  - right. right. left.
  - vm_compute. reflexivity.
  - vm_compute. repeat constructor.
  - intros s Hs. apply list_elem_of_singleton in Hs. subst s. vm_compute. discriminate.
  - vm_compute. reflexivity.
  - exists results. split; [exact Hscore | exact Hin].
Defined.

Lemma score_failure_semantics_witness :
  (exists results,
     @score ascii_locale (VString (js "banana")) test_world0 = (test_world0, Normal results) /\
     results = []) /\
  (@addDocument ascii_locale 0%nat test_world0).2 = Normal tt /\
  @score ascii_locale VNull test_world = (test_world, Throw TypeError).
Proof.
  destruct (@score_failure_semantics ascii_locale test_world0) as (Hscore & Hadd & _).
  destruct (@score_failure_semantics ascii_locale test_world) as (_ & _ & _ & Hnull & _).
  split_and!.
  - destruct (Hscore (js "banana")) as (results & Hrun & _ & Hempty).
    exists results. split; [exact Hrun|]. apply Hempty. vm_compute. reflexivity.
  - apply (Hadd 0%nat (map js ["apple"; "pear"; "banana"; "orange"; "pomegranate"]%string)).
    vm_compute. reflexivity.
  - exact Hnull.
Defined.

Lemma addDocument_replaces_words_witness :
  objects test_world0 !! 0%nat = Some {| doc_id := js "fruits"; doc_words := 0%nat |} /\
  arrays test_world0 !! 0%nat =
    Some (map js ["apple"; "pear"; "banana"; "orange"; "pomegranate"]%string) /\
  exists w' a,
    @addDocument ascii_locale 0%nat test_world0 = (w', Normal tt) /\
    objects w' !! 0%nat = Some {| doc_id := js "fruits"; doc_words := a |} /\
    a <> 0%nat /\
    arrays test_world0 !! a = None /\
    arrays w' !! a =
      Some (map (@toLocaleLowerCase ascii_locale)
              (map js ["apple"; "pear"; "banana"; "orange"; "pomegranate"]%string)) /\
    arrays w' !! 0%nat =
      Some (map js ["apple"; "pear"; "banana"; "orange"; "pomegranate"]%string) /\
    words_of w' 0%nat =
      Some (map (@toLocaleLowerCase ascii_locale)
              (map js ["apple"; "pear"; "banana"; "orange"; "pomegranate"]%string)).
Proof.
  assert (objects test_world0 !! 0%nat =
          Some {| doc_id := js "fruits"; doc_words := 0%nat |}) as Hd.
  { vm_compute. reflexivity. }
  assert (arrays test_world0 !! 0%nat =
          Some (map js ["apple"; "pear"; "banana"; "orange"; "pomegranate"]%string)) as Hws.
  { vm_compute. reflexivity. }
  split; [exact Hd|]. split; [exact Hws|].
  exact (@addDocument_replaces_words ascii_locale 0%nat
           {| doc_id := js "fruits"; doc_words := 0%nat |} _ test_world0 Hd Hws).
Defined.

(** ** Where the specification and the code part *)

Lemma stop_ranking :
  (@score ascii_locale (VString (js "stop")) stop_world).2 =
  Normal [{| Result.document := 0%nat; Result.score := PInf |}].
Proof. vm_compute. reflexivity. Qed.

Lemma stop_results (results : list Result.t) :
  @score ascii_locale (VString (js "stop")) stop_world = (stop_world, Normal results) ->
  {| Result.document := 0%nat; Result.score := Fin 0 |} ∉ results.
Proof.
  intros Hscore.
  assert ((@score ascii_locale (VString (js "stop")) stop_world).2 = Normal results) as E.
  { rewrite Hscore. reflexivity. }
  rewrite stop_ranking in E. injection E as <-.
  intros Hin. apply list_elem_of_singleton in Hin. discriminate.
Qed.

(** C5 as stated fails on a keyword that is a stop word: the document
    "signs" has the word "stop", and the query "stop" yields it with the
    score [Infinity]. *)
Lemma keyword_query_counterexample :
  ~ (forall stops docs w doc ws x,
       @history ascii_locale stops docs w -> (doc, ws) ∈ docs -> x ∈ ws ->
       exists results,
         @score ascii_locale (VString x) w = (w, Normal results) /\
         {| Result.document := doc; Result.score := Fin 0 |} ∈ results).
Proof.
  intros Hclaim.
  destruct (Hclaim [js "stop"] [(0%nat, map js ["stop"; "new york"]%string)] stop_world
              0%nat (map js ["stop"; "new york"]%string) (js "stop") stop_history)
    as (results & Hscore & Hin).
  - left.
  - left.
  - exact (stop_results results Hscore Hin).
Qed.

(** The same on a keyword with white space: the query "new york" is split
    into two words, and "new" is five edits away from the keyword. *)
Example keyword_with_space :
  (@score ascii_locale (VString (js "new york")) stop_world).2 =
  Normal [{| Result.document := 0%nat; Result.score := PInf |}].
Proof. vm_compute. reflexivity. Qed.

(** An empty query is one empty word, which is one edit away from a keyword
    of one letter: the score is 1, not [Infinity]. *)
Example empty_query_short_keyword :
  (@score ascii_locale (VString (js "")) short_world).2 =
  Normal [{| Result.document := 0%nat; Result.score := Fin 1 |}].
Proof. vm_compute. reflexivity. Qed.

(** C6 as stated fails on [null]: [score(null)] raises a [TypeError], not an
    [InvalidArgument]. *)
Lemma score_null_counterexample :
  (@score ascii_locale VNull test_world).2 = Throw TypeError /\
  (@score ascii_locale VNull test_world).2 <> Throw InvalidArgument.
Proof. split; [reflexivity | discriminate]. Qed.
